(** * Subtitle_Corrector: the batch-correction pipeline of [src/App.js]

    A shallow embedding of the JavaScript of the subtitle corrector and the
    proofs of its specification's testable properties.

    The repository holds the pipeline in near-duplicate variants.  Two of
    them are modelled here:
    - [App]     : the first document of [src/src/App.js], the "v3.0" variant
                  ([BATCH_SIZE = 25], [retries = 5], growing 429 back-off,
                  a [throw] after the retry loop, a check of [resultText]);
    - [Variant] : [src/unnamed/part_000], the "robust" variant
                  ([BATCH_SIZE = 75], [retries = 3], fixed 429 wait, nothing
                  after the retry loop, no check of [resultText]).
    The response reconciler and the batch loop are the same text in both and
    are modelled once, with what differs as parameters.  The second document
    of [src/src/App.js] has that reconciler and batch loop too, and the
    retry loop of [Variant] with the payload test of [App]; its invoker is
    modelled as [Spaced]. *)

From Stdlib Require Import ZArith NArith QArith List Ascii String Lia.
From Stdlib Require Import DecimalString.
From Stdlib Require Import DecimalNat.
From stdpp Require Import base option list gmap.

Local Open Scope nat_scope.

(** ** JavaScript strings

    A JavaScript string is a sequence of UTF-16 code units. *)

Abbreviation jsstring := (list N).

(** A string literal of the source whose characters are all ASCII. *)
Definition u16 (s : string) : jsstring :=
  map N_of_ascii (list_ascii_of_string s).

(** [WhiteSpace] and [LineTerminator] code units, the ones
    [String.prototype.trim] strips. *)
Definition isWhiteSpace (c : N) : bool :=
  ((9 <=? c) && (c <=? 13) || (c =? 32) || (c =? 160) || (c =? 5760)
   || (8192 <=? c) && (c <=? 8202) || (c =? 8232) || (c =? 8233)
   || (c =? 8239) || (c =? 8287) || (c =? 12288) || (c =? 65279))%N.

Fixpoint trimStart (s : jsstring) : jsstring :=
  match s with
  | c :: s' => if isWhiteSpace c then trimStart s' else s
  | [] => []
  end.

Definition trimEnd (s : jsstring) : jsstring := rev (trimStart (rev s)).

(** [s.trim()] *)
Definition trim (s : jsstring) : jsstring := trimEnd (trimStart s).

(** [s.startsWith(p)] *)
Fixpoint startsWith (p s : jsstring) : bool :=
  match p, s with
  | [], _ => true
  | a :: p', b :: s' => (a =? b)%N && startsWith p' s'
  | _ :: _, [] => false
  end.

(** [s.includes(sep)] *)
Fixpoint includes (sep s : jsstring) : bool :=
  startsWith sep s ||
  match s with
  | [] => false
  | _ :: s' => includes sep s'
  end.

(** The text before and the text after the leftmost occurrence of [sep] in
    [s], when there is one. *)
Fixpoint cut (sep s : jsstring) : option (jsstring * jsstring) :=
  if startsWith sep s then Some ([], drop (length sep) s)
  else match s with
       | [] => None
       | c :: s' =>
           match cut sep s' with
           | Some (before, after) => Some (c :: before, after)
           | None => None
           end
       end.

(** [s.split(sep)] for a non-empty separator: cut at the leftmost
    occurrence, continue in what follows it.  Every cut consumes at least
    one code unit, so [length s] rounds are enough ([split_fuel_enough]). *)
Fixpoint split_fuel (fuel : nat) (sep s : jsstring) : list jsstring :=
  match fuel with
  | 0 => [s]
  | S fuel' =>
      match cut sep s with
      | Some (before, after) => before :: split_fuel fuel' sep after
      | None => [s]
      end
  end.

Definition split (sep s : jsstring) : list jsstring :=
  split_fuel (length s) sep s.

(** [parts.join(sep)] *)
Fixpoint join (sep : jsstring) (parts : list jsstring) : jsstring :=
  match parts with
  | [] => []
  | [p] => p
  | p :: rest => p ++ sep ++ join sep rest
  end.

(** [arr.slice(start, end)] for indices [0 <= start <= end]; both are
    clamped to the length of the array. *)
Definition slice {A} (start end_ : nat) (arr : list A) : list A :=
  take (end_ - start) (drop start arr).

(** [n.toString()] for a non-negative integer: its decimal digits, no
    leading zero. *)
Definition toString (n : nat) : jsstring :=
  u16 (NilEmpty.string_of_uint (Nat.to_uint n)).

(** [a || b] where [a] is a string or [undefined] and [b] a string: the
    empty string and [undefined] are falsy. *)
Definition js_or (a : option jsstring) (b : jsstring) : jsstring :=
  match a with
  | Some (c :: s) => c :: s
  | Some [] => b
  | None => b
  end.

(** ** Plain objects used as string-keyed maps

    [fixedLinesMap] is created by the literal [{}] and is only assigned
    strings.  An assignment creates or overwrites an own property, except
    under the key [__proto__]: there the setter inherited from
    [Object.prototype] runs, and it ignores a value that is neither an
    object nor [null].  The object is only read at canonical decimal keys,
    where [Object.prototype] contributes nothing, so a read is a lookup of
    the own properties. *)

Definition proto_key : jsstring := Eval cbv in u16 "__proto__".

Definition setProp (k v : jsstring) (o : gmap (list N) (list N))
  : gmap (list N) (list N) :=
  if decide (k = proto_key) then o else <[k := v]> o.

(** ** Subtitle entries

    The items [parser.fromSrt] of srt-parser-2 returns. *)

Record Entry := mkEntry {
  id : jsstring;
  startTime : jsstring;
  startSeconds : Q;
  endTime : jsstring;
  endSeconds : Q;
  text : jsstring
}.

(** [{ ...item, text: t }] *)
Definition withText (item : Entry) (t : jsstring) : Entry :=
  {| id := id item;
     startTime := startTime item;
     startSeconds := startSeconds item;
     endTime := endTime item;
     endSeconds := endSeconds item;
     text := t |}.

(** ** The response reconciler (body of the batch loop of [processSrt]) *)

Definition SEP : jsstring := Eval cbv in u16 ">>>".
Definition NL : jsstring := [10%N].

(** What the [forEach] callback computes from a line that contains the
    separator: [idx] and [txt]. *)
Definition lineEntry (line : jsstring) : option (jsstring * jsstring) :=
  if includes SEP line then
    let parts := split SEP line in
    let idx := trim (default [] (parts !! 0)) in
    let txt := trim (join SEP (slice 1 (length parts) parts)) in
    Some (idx, txt)
  else None.

(** The [forEach] callback: [fixedLinesMap[idx] = txt]. *)
Definition recordLine (fixedLinesMap : gmap (list N) (list N))
    (line : jsstring) : gmap (list N) (list N) :=
  match lineEntry line with
  | Some (idx, txt) => setProp idx txt fixedLinesMap
  | None => fixedLinesMap
  end.

Definition recordLines (lines : list jsstring) : gmap (list N) (list N) :=
  fold_left recordLine lines ∅.

(** [fixedLinesMap] after [resultText.split("\n").forEach(...)]. *)
Definition fixedLinesMap (resultText : jsstring) : gmap (list N) (list N) :=
  recordLines (split NL resultText).

(** [currentBatch.map((item, idx) => ...)] *)
Definition safeBatch (fixedLinesMap : gmap (list N) (list N))
    (currentBatch : list Entry) : list Entry :=
  imap (fun idx item =>
          let key := toString (idx + 1) in
          withText item (js_or (fixedLinesMap !! key) (text item)))
       currentBatch.

Definition reconcile (resultText : jsstring) (currentBatch : list Entry)
  : list Entry :=
  safeBatch (fixedLinesMap resultText) currentBatch.

(** [textBlock]: the batch rendered as [idx>>>text] lines. *)
Definition textBlock (currentBatch : list Entry) : jsstring :=
  join NL (imap (fun idx item => toString (idx + 1) ++ SEP ++ text item)
                currentBatch).

(** ** The world the pipeline runs in

    The remote model is a black box: [network k] is what the [k]-th call of
    [fetch] of a run meets.  The component state ([useState]) and the timers
    are recorded in [World]. *)

Record Part := mkPart { part_text : option jsstring }.
Record Content := mkContent { parts : option (list Part) }.
Record Candidate := mkCandidate {
  content : option Content;
  finishReason : option jsstring
}.
Record PromptFeedback := mkPromptFeedback { blockReason : option jsstring }.

(** The JSON of a response: [error.message], [candidates],
    [promptFeedback]; a field that is absent is [None]. *)
Record Payload := mkPayload {
  error_message : option jsstring;
  candidates : option (list Candidate);
  promptFeedback : option PromptFeedback
}.

(** What [response.json()] gives: it rejects, or it resolves to [null], or
    it resolves to an object.  (Any other JSON value has none of the fields
    read and behaves as an object without them.) *)
Inductive Body :=
| NoJson
| JsonNull
| Json (data : Payload).

Record Response := mkResponse { status : Z; body : Body }.

(** [response.ok] *)
Definition ok (r : Response) : bool :=
  ((200 <=? status r) && (status r <=? 299))%Z.

Inductive FetchOutcome :=
| Rejected                      (* [fetch] rejects: the network failed *)
| Responded (r : Response).

(** The parts of [fullPrompt] that vary: the line count, the excerpt of the
    reference script and the rendered batch. *)
Record Prompt := mkPrompt {
  prompt_lines : nat;
  prompt_excerpt : jsstring;
  prompt_block : jsstring
}.

Inductive Exception :=
| NetworkFailure       (* [fetch] rejected *)
| JsonFailure          (* [response.json()] rejected *)
| TypeError            (* a property of [undefined] was read *)
| ReadFailure.         (* [FileReader] failed *)

Inductive Reason :=
| UnknownReason                              (* "未知原因" *)
| FinishReason (r : option jsstring)         (* [finishReason || "未知"] *)
| PromptBlocked (r : option jsstring).       (* [promptFeedback.blockReason] *)

Inductive Error :=
| RateLimitExhausted                         (* "限流重试次数耗尽" *)
| ApiError (status : Z) (message : option jsstring)   (* "API 报错: ..." *)
| Refused (reason : Reason)                  (* "API 拒绝生成 (原因: ...)" *)
| AbnormalTermination                        (* "请求逻辑异常终止" *)
| BadStructure                               (* "数据结构异常" *)
| InvalidResult                              (* "API 返回数据格式无效" *)
| EmptySrt                                   (* "SRT 文件为空" *)
| Raised (e : Exception).

Inductive LogEvent :=
| LogStart
| LogStrategy
| LogParsed (count : nat)
| LogBatch (batchIndex totalBatches lines : nat)
| LogRateLimit (waitTime : Z)
| LogBusy
| LogRetry (error : Error)
| LogDone
| LogFatal (error : Error).

Inductive Alert :=
| AlertNoApiKey
| AlertNoSrtFile
| AlertNoScript
| AlertAborted (error : Error).

Record World := mkWorld {
  requests : list Prompt;          (* the prompts sent by [fetch], in order *)
  slept : list Z;                  (* the [sleep(ms)] calls, in order *)
  logs : list LogEvent;
  progress : option (nat * nat);   (* last [batchIndex / totalBatches] *)
  isProcessing : bool;
  finalSrt : option jsstring;
  alerts : list Alert
}.

Definition initial : World :=
  {| requests := []; slept := []; logs := []; progress := None;
     isProcessing := false; finalSrt := None; alerts := [] |}.

(** How a piece of code completes: normally with a value, or by throwing. *)
Inductive Completion (A : Type) :=
| Normal (a : A)
| Throw (e : Error).
Arguments Normal {A} a.
Arguments Throw {A} e.

Definition M (A : Type) : Type := World -> Completion A * World.

#[export] Instance M_ret : MRet M := fun A a w => (Normal a, w).
#[export] Instance M_bind : MBind M := fun A B f m w =>
  match m w with
  | (Normal a, w') => f a w'
  | (Throw e, w') => (Throw e, w')
  end.

Definition throw {A} (e : Error) : M A := fun w => (Throw e, w).

(** [try { body } catch (error) { handler }] *)
Definition try_catch {A} (body : M A) (handler : Error -> M A) : M A :=
  fun w =>
    match body w with
    | (Throw e, w') => handler e w'
    | r => r
    end.

Definition sleep (ms : Z) : M unit := fun w =>
  (Normal tt,
   {| requests := requests w; slept := slept w ++ [ms]; logs := logs w;
      progress := progress w; isProcessing := isProcessing w;
      finalSrt := finalSrt w; alerts := alerts w |}).

Definition setLogs (f : list LogEvent -> list LogEvent) : M unit := fun w =>
  (Normal tt,
   {| requests := requests w; slept := slept w; logs := f (logs w);
      progress := progress w; isProcessing := isProcessing w;
      finalSrt := finalSrt w; alerts := alerts w |}).

Definition setProgress (batchIndex totalBatches : nat) : M unit := fun w =>
  (Normal tt,
   {| requests := requests w; slept := slept w; logs := logs w;
      progress := Some (batchIndex, totalBatches);
      isProcessing := isProcessing w;
      finalSrt := finalSrt w; alerts := alerts w |}).

Definition setIsProcessing (b : bool) : M unit := fun w =>
  (Normal tt,
   {| requests := requests w; slept := slept w; logs := logs w;
      progress := progress w; isProcessing := b;
      finalSrt := finalSrt w; alerts := alerts w |}).

Definition setFinalSrt (s : jsstring) : M unit := fun w =>
  (Normal tt,
   {| requests := requests w; slept := slept w; logs := logs w;
      progress := progress w; isProcessing := isProcessing w;
      finalSrt := Some s; alerts := alerts w |}).

Definition alert (a : Alert) : M unit := fun w =>
  (Normal tt,
   {| requests := requests w; slept := slept w; logs := logs w;
      progress := progress w; isProcessing := isProcessing w;
      finalSrt := finalSrt w; alerts := alerts w ++ [a] |}).

(** [await fetch(url, ...)]: the request goes out, then the outcome the
    network has for it comes back. *)
Definition fetch (network : nat -> FetchOutcome) (fullPrompt : Prompt)
  : M Response := fun w =>
  let w' :=
    {| requests := requests w ++ [fullPrompt]; slept := slept w;
       logs := logs w; progress := progress w;
       isProcessing := isProcessing w; finalSrt := finalSrt w;
       alerts := alerts w |} in
  match network (length (requests w)) with
  | Rejected => (Throw (Raised NetworkFailure), w')
  | Responded r => (Normal r, w')
  end.

(** How one round of the retry loop ends when nothing is thrown. *)
Inductive Step :=
| Continue
| Return (v : option jsstring).

(** ** The batch orchestrator, [processSrt]

    The two variants run the same loop; what differs between them (the
    constants, [addLog], the opening log lines, the invoker and the check of
    its result) is a parameter here and is supplied by [App] and [Variant].
    The subtitle parser ([fromSrt], [toSrt]) is an external collaborator. *)

(** The selected file; [file_text = None] when reading it fails. *)
Record File := mkFile { file_name : jsstring; file_text : option jsstring }.

Definition readFileAsText (file : File) : M jsstring :=
  match file_text file with
  | Some fileText => mret fileText
  | None => throw (Raised ReadFailure)
  end.

Section Orchestrator.
Variable BATCH_SIZE : nat.
Variable excerptLength : nat.
Variable cooldown : Z.
Variable addLog : LogEvent -> M unit.
Variable startLogs : M unit.
Variable callGeminiWithRetry : Prompt -> M (option jsstring).
Variable checkResult : option jsstring -> M jsstring.
Variable fromSrt : jsstring -> list Entry.
Variable toSrt : list Entry -> jsstring.

Definition fullPrompt (scriptText : jsstring) (currentBatch : list Entry)
  : Prompt :=
  {| prompt_lines := length currentBatch;
     prompt_excerpt := slice 0 excerptLength scriptText;
     prompt_block := textBlock currentBatch |}.

(** [Math.ceil(srtArray.length / BATCH_SIZE)] *)
Definition totalBatchesOf (srtArray : list Entry) : nat :=
  length srtArray / BATCH_SIZE
  + (if length srtArray mod BATCH_SIZE =? 0 then 0 else 1).

(** The body of the batch loop at index [i]; it yields the new
    [processedArray]. *)
Definition batchRound (scriptText : jsstring) (srtArray : list Entry)
    (totalBatches i : nat) (processedArray : list Entry)
  : M (list Entry) :=
  let batchIndex := i / BATCH_SIZE + 1 in
  let currentBatch := slice i (i + BATCH_SIZE) srtArray in
  addLog (LogBatch batchIndex totalBatches (length currentBatch));;
  resultText ← callGeminiWithRetry (fullPrompt scriptText currentBatch);
  resultText ← checkResult resultText;
  let safeBatch := reconcile resultText currentBatch in
  let processedArray := processedArray ++ safeBatch in
  setProgress batchIndex totalBatches;;
  (if batchIndex <? totalBatches then sleep cooldown else mret tt);;
  mret processedArray.

(** [for (let i = 0; i < srtArray.length; i += BATCH_SIZE)].  Each round
    moves [i] forward by [BATCH_SIZE], so [srtArray.length] rounds are
    enough when [BATCH_SIZE] is positive ([batchLoop_fuel_enough]). *)
Fixpoint batchLoop (fuel : nat) (scriptText : jsstring)
    (srtArray : list Entry) (totalBatches i : nat)
    (processedArray : list Entry) : M (list Entry) :=
  if i <? length srtArray then
    match fuel with
    | 0 => mret processedArray
    | S fuel' =>
        processedArray ←
          batchRound scriptText srtArray totalBatches i processedArray;
        batchLoop fuel' scriptText srtArray totalBatches (i + BATCH_SIZE)
          processedArray
    end
  else mret processedArray.

(** The values [currentBatch] takes, round after round. *)
Fixpoint batches_from (fuel i : nat) (srtArray : list Entry)
  : list (list Entry) :=
  if i <? length srtArray then
    match fuel with
    | 0 => []
    | S fuel' =>
        slice i (i + BATCH_SIZE) srtArray
        :: batches_from fuel' (i + BATCH_SIZE) srtArray
    end
  else [].

Definition batches (srtArray : list Entry) : list (list Entry) :=
  batches_from (length srtArray) 0 srtArray.

(** The body of [try] in [processSrt]; it yields [processedArray] as it is
    when handed to [parser.toSrt]. *)
Definition pipeline (scriptText : jsstring) (srtFile : File)
  : M (list Entry) :=
  fileText ← readFileAsText srtFile;
  let srtArray := fromSrt fileText in
  addLog (LogParsed (length srtArray));;
  if length srtArray =? 0 then throw EmptySrt
  else
    let totalBatches := totalBatchesOf srtArray in
    processedArray ←
      batchLoop (length srtArray) scriptText srtArray totalBatches 0 [];
    let finalString := toSrt processedArray in
    setFinalSrt finalString;;
    addLog LogDone;;
    setIsProcessing false;;
    mret processedArray.

Definition processSrt (apiKey scriptText : jsstring)
    (srtFile : option File) : M unit :=
  match apiKey, srtFile, scriptText with
  | [], _, _ => alert AlertNoApiKey
  | _, None, _ => alert AlertNoSrtFile
  | _, _, [] => alert AlertNoScript
  | _ :: _, Some file, _ :: _ =>
      setIsProcessing true;;
      setLogs (fun _ => []);;
      startLogs;;
      try_catch (pipeline scriptText file;; mret tt)
        (fun error =>
           addLog (LogFatal error);;
           setIsProcessing false;;
           alert (AlertAborted error))
  end.
End Orchestrator.

(** ** The resilient invoker, [src/src/App.js] *)

Module App.

Definition BATCH_SIZE : nat := 25.
Definition excerptLength : nat := 3000.
Definition cooldown : Z := 4000.
Definition defaultRetries : Z := 5.

(** [setLogs((prev) => [msg, ...prev])] *)
Definition addLog (msg : LogEvent) : M unit :=
  setLogs (fun prev => msg :: prev).

Definition startLogs : M unit := addLog LogStart.

Section Invoker.
Variable network : nat -> FetchOutcome.
Variable fullPrompt : Prompt.
Variable retries : Z.

(** The [else] branch of the payload test: the reason reported. *)
Definition reasonOf (data : Payload) : Reason :=
  match candidates data with
  | Some (c :: _) => FinishReason (finishReason c)
  | _ =>
      match promptFeedback data with
      | Some feedback => PromptBlocked (blockReason feedback)
      | None => UnknownReason
      end
  end.

(** The payload test and [return data.candidates[0].content.parts[0].text];
    reading [.text] of a missing first part throws. *)
Definition generated (data : Payload) : M Step :=
  match candidates data with
  | Some (c :: _) =>
      match content c with
      | Some ct =>
          match parts ct with
          | Some (p :: _) => mret (Return (part_text p))
          | Some [] => throw (Raised TypeError)
          | None => throw (Refused (reasonOf data))
          end
      | None => throw (Refused (reasonOf data))
      end
  | _ => throw (Refused (reasonOf data))
  end.

(** The body of [try] in round [i]. *)
Definition tryBlock (i : Z) : M Step :=
  response ← fetch network fullPrompt;
  if (status response =? 429)%Z then
    let waitTime := (20000 + i * 10000)%Z in
    addLog (LogRateLimit waitTime);;
    sleep waitTime;;
    if (i =? retries - 1)%Z then throw RateLimitExhausted
    else mret Continue
  else if (status response =? 503)%Z then
    addLog LogBusy;;
    sleep 10000;;
    mret Continue
  else if negb (ok response) then
    (* [errorData = await response.json().catch(() => ({}))] *)
    match body response with
    | NoJson => throw (ApiError (status response) None)
    | JsonNull => throw (Raised TypeError)
    | Json errorData =>
        throw (ApiError (status response) (error_message errorData))
    end
  else
    match body response with
    | NoJson => throw (Raised JsonFailure)
    | JsonNull => throw (Raised TypeError)
    | Json data => generated data
    end.

(** One round: [try { ... } catch (error) { ... }]. *)
Definition round (i : Z) : M Step :=
  try_catch (tryBlock i)
    (fun error =>
       if (i =? retries - 1)%Z then throw error
       else addLog (LogRetry error);; sleep 5000;; mret Continue).

(** [for (let i = 0; i < retries; i++)], by recursion on the rounds that
    remain, [retries - i]; after the loop comes
    [throw new Error("请求逻辑异常终止")]. *)
Fixpoint attempts (remaining : nat) (i : Z) : M (option jsstring) :=
  match remaining with
  | 0 => throw AbnormalTermination
  | S remaining' =>
      step ← round i;
      match step with
      | Continue => attempts remaining' (i + 1)%Z
      | Return v => mret v
      end
  end.

Definition callGeminiWithRetry : M (option jsstring) :=
  attempts (Z.to_nat retries) 0%Z.
End Invoker.

(** [if (!resultText || typeof resultText !== "string") throw ...] *)
Definition checkResult (resultText : option jsstring) : M jsstring :=
  match resultText with
  | Some (c :: s) => mret (c :: s)
  | _ => throw InvalidResult
  end.

Definition processSrt (network : nat -> FetchOutcome)
    (fromSrt : jsstring -> list Entry) (toSrt : list Entry -> jsstring)
  : jsstring -> jsstring -> option File -> M unit :=
  processSrt BATCH_SIZE excerptLength cooldown addLog startLogs
    (fun fullPrompt => callGeminiWithRetry network fullPrompt defaultRetries)
    checkResult fromSrt toSrt.

End App.

(** ** The resilient invoker, [src/unnamed/part_000] *)

Module Variant.

Definition BATCH_SIZE : nat := 75.
Definition excerptLength : nat := 4000.
Definition cooldown : Z := 3000.
Definition defaultRetries : Z := 3.

(** [setLogs((prev) => [...prev, msg])] *)
Definition addLog (msg : LogEvent) : M unit :=
  setLogs (fun prev => prev ++ [msg]).

Definition startLogs : M unit := addLog LogStart;; addLog LogStrategy.

Section Invoker.
Variable network : nat -> FetchOutcome.
Variable fullPrompt : Prompt.
Variable retries : Z.

(** The payload test; [data.candidates[0].content] of an empty
    [candidates] throws. *)
Definition generated (data : Payload) : M Step :=
  match candidates data with
  | Some (c :: _) =>
      match content c with
      | Some ct =>
          match parts ct with
          | Some (p :: _) => mret (Return (part_text p))
          | Some [] => throw (Raised TypeError)
          | None => throw BadStructure
          end
      | None => throw BadStructure
      end
  | Some [] => throw (Raised TypeError)
  | None => throw BadStructure
  end.

Definition tryBlock (i : Z) : M Step :=
  response ← fetch network fullPrompt;
  if (status response =? 429)%Z then
    addLog (LogRateLimit 20000);;
    sleep 20000;;
    mret Continue
  else if negb (ok response) then
    (* [errorData = await response.json().catch(() => ({}))] *)
    if (status response =? 503)%Z then
      addLog LogBusy;;
      sleep 5000;;
      mret Continue
    else
      match body response with
      | NoJson => throw (ApiError (status response) None)
      | JsonNull => throw (Raised TypeError)
      | Json errorData =>
          throw (ApiError (status response) (error_message errorData))
      end
  else
    match body response with
    | NoJson => throw (Raised JsonFailure)
    | JsonNull => throw (Raised TypeError)
    | Json data => generated data
    end.

Definition round (i : Z) : M Step :=
  try_catch (tryBlock i)
    (fun error =>
       if (i =? retries - 1)%Z then throw error
       else addLog (LogRetry error);; sleep 5000;; mret Continue).

(** [for (let i = 0; i < retries; i++)]; nothing follows the loop, so
    when it runs out the function returns [undefined]. *)
Fixpoint attempts (remaining : nat) (i : Z) : M (option jsstring) :=
  match remaining with
  | 0 => mret None
  | S remaining' =>
      step ← round i;
      match step with
      | Continue => attempts remaining' (i + 1)%Z
      | Return v => mret v
      end
  end.

Definition callGeminiWithRetry : M (option jsstring) :=
  attempts (Z.to_nat retries) 0%Z.
End Invoker.

(** [resultText.split("\n")] with no check before it: it throws when
    [resultText] is [undefined]. *)
Definition checkResult (resultText : option jsstring) : M jsstring :=
  match resultText with
  | Some s => mret s
  | None => throw (Raised TypeError)
  end.

Definition processSrt (network : nat -> FetchOutcome)
    (fromSrt : jsstring -> list Entry) (toSrt : list Entry -> jsstring)
  : jsstring -> jsstring -> option File -> M unit :=
  processSrt BATCH_SIZE excerptLength cooldown addLog startLogs
    (fun fullPrompt => callGeminiWithRetry network fullPrompt defaultRetries)
    checkResult fromSrt toSrt.

End Variant.

(** ** The resilient invoker, second document of [src/src/App.js]

    The "space mode" variant: the retry loop of [Variant] (fixed waits,
    nothing after the loop) with the payload test of [App]. *)

Module Spaced.

Definition defaultRetries : Z := 3.

(** [setLogs((prev) => [...prev, msg])] *)
Definition addLog (msg : LogEvent) : M unit :=
  setLogs (fun prev => prev ++ [msg]).

Section Invoker.
Variable network : nat -> FetchOutcome.
Variable fullPrompt : Prompt.
Variable retries : Z.

Definition tryBlock (i : Z) : M Step :=
  response ← fetch network fullPrompt;
  if (status response =? 429)%Z then
    addLog (LogRateLimit 20000);;
    sleep 20000;;
    mret Continue
  else if negb (ok response) then
    if (status response =? 503)%Z then
      addLog LogBusy;;
      sleep 5000;;
      mret Continue
    else
      (* [errorData = await response.json().catch(() => ({}))] *)
      match body response with
      | NoJson => throw (ApiError (status response) None)
      | JsonNull => throw (Raised TypeError)
      | Json errorData =>
          throw (ApiError (status response) (error_message errorData))
      end
  else
    match body response with
    | NoJson => throw (Raised JsonFailure)
    | JsonNull => throw (Raised TypeError)
    | Json data => App.generated data
    end.

Definition round (i : Z) : M Step :=
  try_catch (tryBlock i)
    (fun error =>
       if (i =? retries - 1)%Z then throw error
       else addLog (LogRetry error);; sleep 5000;; mret Continue).

(** [for (let i = 0; i < retries; i++)]; nothing follows the loop. *)
Fixpoint attempts (remaining : nat) (i : Z) : M (option jsstring) :=
  match remaining with
  | 0 => mret None
  | S remaining' =>
      step ← round i;
      match step with
      | Continue => attempts remaining' (i + 1)%Z
      | Return v => mret v
      end
  end.

Definition callGeminiWithRetry : M (option jsstring) :=
  attempts (Z.to_nat retries) 0%Z.
End Invoker.

End Spaced.

(** ** What a transport outcome carries

    The value round [i] returns when the outcome of its request is a 2xx
    response whose first candidate has a first part: that part's [text].
    Every other outcome makes the round retry or throw. *)
Definition generatedText (outcome : FetchOutcome)
  : option (option jsstring) :=
  match outcome with
  | Rejected => None
  | Responded response =>
      if ok response then
        match body response with
        | Json data =>
            match candidates data with
            | Some (c :: _) =>
                match content c with
                | Some ct =>
                    match parts ct with
                    | Some (p :: _) => Some (part_text p)
                    | _ => None
                    end
                | None => None
                end
            | _ => None
            end
        | _ => None
        end
      else None
  end.

(** An entry with its text blanked: what the merge must leave alone. *)
Definition frame (item : Entry) : Entry := withText item [].

(** ** Sample data for the worked examples *)

Module Sample.
Definition entry (n : nat) (t : string) : Entry :=
  {| id := toString n;
     startTime := u16 "00:00:01,000" ++ toString n;
     startSeconds := 1;
     endTime := u16 "00:00:02,000" ++ toString n;
     endSeconds := 2;
     text := u16 t |}.

Definition two : list Entry := [entry 1 "helo"; entry 2 "wrld"].

(** A 2xx response whose first candidate carries [t]. *)
Definition generated (t : string) : FetchOutcome :=
  Responded
    {| status := 200;
       body := Json {| error_message := None;
                       candidates :=
                         Some [ {| content :=
                                     Some {| parts :=
                                       Some [ {| part_text := Some (u16 t) |} ]
                                     |};
                                   finishReason := None |} ];
                       promptFeedback := None |} |}.

Definition rateLimited : FetchOutcome :=
  Responded {| status := 429; body := NoJson |}.

(** A network that answers every request with a 429. *)
Definition alwaysRateLimited (k : nat) : FetchOutcome := rateLimited.

Definition prompt : Prompt :=
  {| prompt_lines := 0; prompt_excerpt := []; prompt_block := [] |}.

Definition file : File :=
  {| file_name := u16 "a.srt"; file_text := Some (u16 "1") |}.

(** A parser that decodes every file to [two], and one that decodes
    every file to nothing. *)
Definition fromSrt (fileText : jsstring) : list Entry := two.
Definition fromSrt_none (fileText : jsstring) : list Entry := [].
Definition toSrt (entries : list Entry) : jsstring :=
  join NL (map text entries).

(** A network that rate-limits the first call and then answers with a
    correction of the first line only. *)
Definition network (k : nat) : FetchOutcome :=
  match k with
  | 0 => rateLimited
  | _ => generated "1>>>hello"
  end.

(** The [try] block of [src/src/App.js] run on [file] from [initial]. *)
Definition run : Completion (list Entry) * World :=
  pipeline App.BATCH_SIZE App.excerptLength App.cooldown App.addLog
    (fun fullPrompt =>
       App.callGeminiWithRetry network fullPrompt App.defaultRetries)
    App.checkResult fromSrt toSrt (u16 "script") file initial.

Definition processed : list Entry :=
  match run.1 with
  | Normal processedArray => processedArray
  | Throw _ => []
  end.
End Sample.

(** ** Notions used to state further properties *)

(** The code units of a decimal digit. *)
Definition isDigit (c : N) : Prop := (48 <= c <= 57)%N.

(** [w'] differs from [w] at most in the requests sent, the sleeps, the
    log and the progress: the run flag, the final text and the alerts are
    those of [w]. *)
Definition calm (w w' : World) : Prop :=
  isProcessing w' = isProcessing w
  /\ finalSrt w' = finalSrt w
  /\ alerts w' = alerts w.

(** [calm], and the progress is untouched too. *)
Definition quiet (w w' : World) : Prop :=
  progress w' = progress w /\ calm w w'.

(** [w] after one more request has gone out. *)
Definition withRequest (w : World) (fullPrompt : Prompt) : World :=
  {| requests := requests w ++ [fullPrompt]; slept := slept w;
     logs := logs w; progress := progress w;
     isProcessing := isProcessing w; finalSrt := finalSrt w;
     alerts := alerts w |}.



(** The body of the batch loop as a function of the two constants it
    starts by computing, [batchIndex] and [currentBatch]. *)
Definition batchBody (excerptLength : nat) (cooldown : Z)
    (addLog : LogEvent -> M unit)
    (callGeminiWithRetry : Prompt -> M (option jsstring))
    (checkResult : option jsstring -> M jsstring)
    (scriptText : jsstring) (totalBatches batchIndex : nat)
    (currentBatch processedArray : list Entry) : M (list Entry) :=
  addLog (LogBatch batchIndex totalBatches (length currentBatch));;
  resultText ← callGeminiWithRetry
                 (fullPrompt excerptLength scriptText currentBatch);
  resultText ← checkResult resultText;
  let safeBatch := reconcile resultText currentBatch in
  let processedArray := processedArray ++ safeBatch in
  setProgress batchIndex totalBatches;;
  (if batchIndex <? totalBatches then sleep cooldown else mret tt);;
  mret processedArray.

(** [body] run on the batches of a list one after the other, the first
    with batch index [k + 1]; an error ends the iteration. *)
Fixpoint forBatches
    (body : nat -> list Entry -> list Entry -> M (list Entry))
    (k : nat) (batchList : list (list Entry))
    (processedArray : list Entry) : M (list Entry) :=
  match batchList with
  | [] => mret processedArray
  | currentBatch :: rest =>
      processedArray ← body (k + 1) currentBatch processedArray;
      forBatches body (S k) rest processedArray
  end.


(** ** More sample data *)

Module Scenario.
(** A network that answers every request with the same correction of the
    first line, and the text it carries. *)
Definition answering (k : nat) : FetchOutcome := Sample.generated "1>>>hello".
Definition answer (k : nat) : jsstring := u16 "1>>>hello".


End Scenario.

(** * Properties *)

(** ** Proof automation *)

(** Unfold the monad and the state updates of a computation applied to a
    world. *)
Ltac run_monad :=
  cbv beta iota zeta delta
    [mbind M_bind mret M_ret try_catch throw sleep setLogs setProgress
     setIsProcessing setFinalSrt alert App.addLog App.startLogs
     Variant.addLog Variant.startLogs fst snd].


(** ** Strings: [startsWith], [includes], [cut], [split], [join] *)

Section Strings.
Implicit Types (sep s p before after : jsstring).

Lemma startsWith_app p r : startsWith p (p ++ r) = true.
Proof.
  induction p as [|a p IH]; simpl; [done|].
  by rewrite N.eqb_refl, IH.
Qed.

Lemma startsWith_true p s :
  startsWith p s = true -> s = p ++ drop (length p) s.
Proof.
  revert s. induction p as [|a p IH]; intros [|b s] H; simpl in *; try done.
  apply andb_true_iff in H as [Hab Hps].
  apply N.eqb_eq in Hab as ->. f_equal. by apply IH.
Qed.

Lemma includes_cons sep c s :
  includes sep (c :: s) = startsWith sep (c :: s) || includes sep s.
Proof. reflexivity. Qed.

Lemma cut_nil sep :
  cut sep [] = if startsWith sep [] then Some ([], drop (length sep) [])
               else None.
Proof. reflexivity. Qed.

Lemma cut_cons sep c s :
  cut sep (c :: s) =
    if startsWith sep (c :: s)
    then Some ([], drop (length sep) (c :: s))
    else match cut sep s with
         | Some (before, after) => Some (c :: before, after)
         | None => None
         end.
Proof. reflexivity. Qed.

Lemma includes_cut sep s : includes sep s = true <-> is_Some (cut sep s).
Proof.
  induction s as [|c s IH].
  - rewrite cut_nil. unfold includes.
    destruct (startsWith sep []); simpl.
    + split; [by eexists | done].
    + split; [done | by intros [? ?]].
  - rewrite includes_cons, cut_cons.
    destruct (startsWith sep (c :: s)); simpl.
    + split; [by eexists | done].
    + rewrite IH. destruct (cut sep s) as [[b a]|].
      * split; intros _; by eexists.
      * split; by intros [? ?].
Qed.

(** [cut] splits [s] around an occurrence of the separator ... *)
Lemma cut_Some sep s before after :
  cut sep s = Some (before, after) -> s = before ++ sep ++ after.
Proof.
  revert before. induction s as [|c s IH]; intros before.
  - rewrite cut_nil. destruct (startsWith sep []) eqn:E; [|done].
    intros [= <- <-]. by apply startsWith_true in E.
  - rewrite cut_cons. destruct (startsWith sep (c :: s)) eqn:E.
    + intros [= <- <-]. by apply startsWith_true in E.
    + destruct (cut sep s) as [[b a]|] eqn:Hc; [|done].
      intros [= <- <-]. simpl. f_equal. by apply IH.
Qed.

(** ... and that occurrence is the leftmost one. *)
Lemma cut_first sep s before after :
  cut sep s = Some (before, after) ->
  forall k, k < length before -> startsWith sep (drop k s) = false.
Proof.
  revert before. induction s as [|c s IH]; intros before.
  - rewrite cut_nil. destruct (startsWith sep []); [|done].
    intros [= <- <-] k Hk. simpl in Hk. lia.
  - rewrite cut_cons. destruct (startsWith sep (c :: s)) eqn:E.
    + intros [= <- <-] k Hk. simpl in Hk. lia.
    + destruct (cut sep s) as [[b a]|] eqn:Hc; [|done].
      intros [= <- <-] [|k] Hk; [done|].
      simpl in Hk. simpl. apply (IH b); [done | lia].
Qed.

Lemma split_fuel_cons fuel sep s :
  exists p rest, split_fuel fuel sep s = p :: rest.
Proof.
  destruct fuel as [|fuel]; simpl; [by eexists _, _|].
  destruct (cut sep s) as [[b a]|]; by eexists _, _.
Qed.

Lemma join_cons sep p q rest :
  join sep (p :: q :: rest) = p ++ sep ++ join sep (q :: rest).
Proof. reflexivity. Qed.

(** Joining what [split] returns gives the string back, so the pieces
    after the first are the text after the first separator, with the
    further separators in place. *)
Lemma join_split_fuel fuel sep s : join sep (split_fuel fuel sep s) = s.
Proof.
  revert s. induction fuel as [|fuel IH]; intros s; simpl; [done|].
  destruct (cut sep s) as [[b a]|] eqn:Hc; [|done].
  destruct (split_fuel_cons fuel sep a) as (p & rest & Hs).
  specialize (IH a). rewrite Hs in *. rewrite join_cons, IH.
  symmetry. by apply cut_Some.
Qed.

Lemma cut_shorter sep s before after :
  sep <> [] -> cut sep s = Some (before, after) -> length after < length s.
Proof.
  intros Hsep Hc. apply cut_Some in Hc as ->.
  rewrite !length_app. destruct sep; [done|]. simpl. lia.
Qed.

(** The rounds [split] gives itself are enough: more change nothing. *)
Lemma split_fuel_enough sep fuel1 fuel2 s :
  sep <> [] -> length s <= fuel1 -> length s <= fuel2 ->
  split_fuel fuel1 sep s = split_fuel fuel2 sep s.
Proof.
  intros Hsep. revert fuel2 s.
  induction fuel1 as [|fuel1 IH]; intros fuel2 s H1 H2.
  - destruct s; [|simpl in H1; lia].
    destruct sep; [done|]. by destruct fuel2.
  - destruct fuel2 as [|fuel2].
    + destruct s; [|simpl in H2; lia].
      by destruct sep.
    + simpl. destruct (cut sep s) as [[b a]|] eqn:Hc; [|done].
      pose proof (cut_shorter _ _ _ _ Hsep Hc).
      f_equal. apply IH; lia.
Qed.

Lemma split_cut sep s before after :
  sep <> [] -> cut sep s = Some (before, after) ->
  exists fuel, split sep s = before :: split_fuel fuel sep after.
Proof.
  intros Hsep Hc. unfold split. destruct (length s) as [|n] eqn:Hn.
  - destruct s; [|done]. rewrite cut_nil in Hc. by destruct sep.
  - exists n. simpl. by rewrite Hc.
Qed.
End Strings.

(** ** The response reconciler *)

Lemma withText_same item : withText item (text item) = item.
Proof. by destruct item. Qed.

Lemma safeBatch_length (m : gmap (list N) (list N))
    (currentBatch : list Entry) :
  length (safeBatch m currentBatch) = length currentBatch.
Proof. apply length_imap. Qed.

Lemma safeBatch_lookup (m : gmap (list N) (list N))
    (currentBatch : list Entry) (idx : nat) (item : Entry) :
  currentBatch !! idx = Some item ->
  safeBatch m currentBatch !! idx
  = Some (withText item (js_or (m !! toString (idx + 1)) (text item))).
Proof. intros H. unfold safeBatch. by rewrite list_lookup_imap, H. Qed.

(** Two maps that agree on the keys [1 .. length currentBatch] give the
    same merged batch. *)
Lemma safeBatch_ext (m1 m2 : gmap (list N) (list N))
    (currentBatch : list Entry) :
  (forall i, 1 <= i <= length currentBatch ->
             m1 !! toString i = m2 !! toString i) ->
  safeBatch m1 currentBatch = safeBatch m2 currentBatch.
Proof.
  intros H. unfold safeBatch. apply imap_ext. intros idx item Hi. simpl.
  apply lookup_lt_Some in Hi. rewrite (H (idx + 1)); [done | lia].
Qed.

Lemma setProp_lookup_ne (k v : jsstring) (m : gmap (list N) (list N))
    (k' : jsstring) :
  k <> k' -> setProp k v m !! k' = m !! k'.
Proof.
  intros Hne. unfold setProp. case_decide; [done|]. by apply lookup_insert_ne.
Qed.

Lemma setProp_lookup_eq (k v : jsstring) (m : gmap (list N) (list N)) :
  k <> proto_key -> setProp k v m !! k = Some v.
Proof.
  intros Hne. unfold setProp. case_decide; [done|]. apply lookup_insert_eq.
Qed.

(** Lines processed after two maps that differ at most at [k] leave maps
    that differ at most at [k]. *)
Lemma recordLines_agree (k : jsstring) (lines : list jsstring)
    (m1 m2 : gmap (list N) (list N)) :
  (forall k', k' <> k -> m1 !! k' = m2 !! k') ->
  forall k', k' <> k ->
    fold_left recordLine lines m1 !! k' = fold_left recordLine lines m2 !! k'.
Proof.
  revert m1 m2. induction lines as [|line lines IH]; intros m1 m2 H; [done|].
  simpl. apply IH. intros k' Hk'. unfold recordLine.
  destruct (lineEntry line) as [[idx txt]|]; [|by apply H].
  unfold setProp. case_decide; [by apply H|].
  rewrite !lookup_insert. case_decide; [done | by apply H].
Qed.

Lemma lineEntry_cut (line before after : jsstring) :
  cut SEP line = Some (before, after) ->
  lineEntry line = Some (trim before, trim after).
Proof.
  intros Hc. unfold lineEntry.
  assert (includes SEP line = true) as -> by (apply includes_cut; by eexists).
  destruct (split_cut SEP line before after) as [fuel Hs]; [done | done |].
  rewrite Hs. simpl. unfold slice. simpl. rewrite Nat.sub_0_r, take_ge by done.
  by rewrite drop_0, join_split_fuel.
Qed.

(** C2 (fallback law).  When the correction map parsed from the response
    has no entry under the decimal string of the 1-based local index [i],
    the merged batch holds at position [i] the original entry itself: its
    text is the original text, character for character. *)
Theorem fallback_law (resultText : jsstring) (currentBatch : list Entry)
    (i : nat) (item : Entry) :
  1 <= i ->
  currentBatch !! (i - 1) = Some item ->
  fixedLinesMap resultText !! toString i = None ->
  reconcile resultText currentBatch !! (i - 1) = Some item
  /\ (text <$> reconcile resultText currentBatch !! (i - 1))
     = Some (text item).
Proof.
  intros Hi Hitem Hnone. unfold reconcile.
  rewrite (safeBatch_lookup _ _ _ _ Hitem).
  replace (i - 1 + 1) with i by lia. rewrite Hnone. simpl.
  by rewrite withText_same.
Qed.

Lemma fallback_law_witness :
  reconcile (u16 "1>>>fixed one") Sample.two !! (2 - 1)
  = Some (Sample.entry 2 "wrld")
  /\ (text <$> reconcile (u16 "1>>>fixed one") Sample.two !! (2 - 1))
     = Some (text (Sample.entry 2 "wrld")).
Proof.
  apply (fallback_law (u16 "1>>>fixed one") Sample.two 2
           (Sample.entry 2 "wrld")).
  - lia.
  - reflexivity.
  - vm_compute. reflexivity.
Defined.

(** C3 as the specification states it fails: the response line [1>>>]
    puts the empty string under key [1], and the merged entry keeps its
    original text, because [||] takes an empty string for a missing one. *)
Lemma empty_correction_not_used :
  fixedLinesMap (u16 "1>>>") !! toString 1 = Some []
  /\ (text <$> reconcile (u16 "1>>>") [Sample.entry 1 "helo"] !! (1 - 1))
     = Some (u16 "helo")
  /\ (text <$> reconcile (u16 "1>>>") [Sample.entry 1 "helo"] !! (1 - 1))
     <> Some [].
Proof. vm_compute. repeat split; congruence. Qed.

(** C3, amended.  When the correction map holds a non-empty string under
    the decimal string of the 1-based local index [i], the merged entry at
    position [i] has exactly that string as its text. *)
Theorem correction_used (resultText : jsstring) (currentBatch : list Entry)
    (i : nat) (item : Entry) (txt : jsstring) :
  1 <= i ->
  currentBatch !! (i - 1) = Some item ->
  fixedLinesMap resultText !! toString i = Some txt ->
  txt <> [] ->
  (text <$> reconcile resultText currentBatch !! (i - 1)) = Some txt.
Proof.
  intros Hi Hitem Hsome Hne. unfold reconcile.
  rewrite (safeBatch_lookup _ _ _ _ Hitem).
  replace (i - 1 + 1) with i by lia. rewrite Hsome. simpl.
  by destruct txt.
Qed.

Lemma correction_used_witness :
  (text <$> reconcile (u16 "1>>>fixed one") Sample.two !! (1 - 1))
  = Some (u16 "fixed one").
Proof.
  apply (correction_used (u16 "1>>>fixed one") Sample.two 1
           (Sample.entry 1 "helo") (u16 "fixed one")).
  - lia.
  - reflexivity.
  - vm_compute. reflexivity.
  - discriminate.
Defined.

(** The merge in full: the text is the map's entry when that is a
    non-empty string and the original text otherwise. *)
Lemma reconcile_text (resultText : jsstring) (currentBatch : list Entry)
    (idx : nat) (item : Entry) :
  currentBatch !! idx = Some item ->
  (text <$> reconcile resultText currentBatch !! idx)
  = Some (js_or (fixedLinesMap resultText !! toString (idx + 1))
                (text item)).
Proof.
  intros Hitem. unfold reconcile. by rewrite (safeBatch_lookup _ _ _ _ Hitem).
Qed.

(** C5 as the specification states it fails twice: the text after the
    first separator is not recorded as it stands, it is trimmed; and a
    line whose key is [__proto__] records nothing, because assigning a
    string to that key of a plain object stores nothing. *)
Lemma separator_line_trimmed_or_dropped :
  cut SEP (u16 "1>>> hi ") = Some (u16 "1", u16 " hi ")
  /\ lineEntry (u16 "1>>> hi ") = Some (u16 "1", u16 "hi")
  /\ fixedLinesMap (u16 "1>>> hi ") !! toString 1 = Some (u16 "hi")
  /\ fixedLinesMap (u16 "1>>> hi ") !! toString 1 <> Some (u16 " hi ")
  /\ includes SEP (u16 "__proto__>>>x") = true
  /\ lineEntry (u16 "__proto__>>>x") = Some (proto_key, u16 "x")
  /\ recordLine ∅ (u16 "__proto__>>>x") = ∅
  /\ fixedLinesMap (u16 "__proto__>>>x") !! proto_key = None.
Proof. vm_compute. repeat split; congruence. Qed.

(** C5, amended.  A response line that contains the separator is cut at
    its first occurrence; the callback's key is the trimmed text before it
    and the corrected text is the trimmed text after it, further separators
    included as they stand.  Unless the key is [__proto__] the callback
    records that text under that key: the map after the line is the map
    before it with that entry set.  When the key is [__proto__] the map is
    left as it was.  The line [3>>>a>>>b] yields the corrected text
    [a>>>b] for local index 3. *)
Theorem separator_rejoin (line : jsstring) :
  includes SEP line = true ->
  exists before after,
    line = before ++ SEP ++ after
    /\ (forall k, k < length before -> startsWith SEP (drop k line) = false)
    /\ lineEntry line = Some (trim before, trim after)
    /\ (forall m, recordLine m line = setProp (trim before) (trim after) m)
    /\ (trim before <> proto_key ->
        forall m, recordLine m line = <[trim before := trim after]> m
                  /\ recordLine m line !! trim before = Some (trim after))
    /\ (trim before = proto_key -> forall m, recordLine m line = m)
    /\ fixedLinesMap (u16 "3>>>a>>>b") !! toString 3 = Some (u16 "a>>>b").
Proof.
  intros Hinc. apply includes_cut in Hinc as [[before after] Hc].
  assert (forall m, recordLine m line = setProp (trim before) (trim after) m)
    as Hrec.
  { intros m. unfold recordLine. by rewrite (lineEntry_cut _ _ _ Hc). }
  exists before, after.
  split; [by apply cut_Some|].
  split; [by apply (cut_first SEP line before after)|].
  split; [by apply lineEntry_cut|].
  split; [done|].
  split; [|split; [|vm_compute; reflexivity]].
  - intros Hkey m. rewrite Hrec. unfold setProp.
    destruct (decide (trim before = proto_key)); [done|].
    split; [done|]. apply lookup_insert_eq.
  - intros Hkey m. rewrite Hrec. unfold setProp.
    by destruct (decide (trim before = proto_key)).
Qed.

Lemma separator_rejoin_witness :
  exists before after,
    u16 " 3 >>>a>>>b" = before ++ SEP ++ after
    /\ (forall k, k < length before ->
                  startsWith SEP (drop k (u16 " 3 >>>a>>>b")) = false)
    /\ lineEntry (u16 " 3 >>>a>>>b") = Some (trim before, trim after)
    /\ (forall m, recordLine m (u16 " 3 >>>a>>>b")
                  = setProp (trim before) (trim after) m)
    /\ (trim before <> proto_key ->
        forall m, recordLine m (u16 " 3 >>>a>>>b")
                  = <[trim before := trim after]> m
                  /\ recordLine m (u16 " 3 >>>a>>>b") !! trim before
                     = Some (trim after))
    /\ (trim before = proto_key ->
        forall m, recordLine m (u16 " 3 >>>a>>>b") = m)
    /\ fixedLinesMap (u16 "3>>>a>>>b") !! toString 3 = Some (u16 "a>>>b").
Proof.
  apply (separator_rejoin (u16 " 3 >>>a>>>b")). vm_compute. reflexivity.
Defined.

(** C10 as stated fails in its first half: a line whose key is
    [__proto__] is not recorded in the map, because assigning a string to
    that key of a plain object stores nothing. *)
Lemma proto_key_not_recorded :
  lineEntry (u16 "__proto__>>>x") = Some (proto_key, u16 "x")
  /\ recordLines [u16 "__proto__>>>x"] !! proto_key = None
  /\ fixedLinesMap (u16 "__proto__>>>x") = ∅.
Proof. vm_compute. repeat split; reflexivity. Qed.

(** C10, amended.  A response line whose trimmed index part is not the
    decimal string of an integer [i] with [1 <= i <= L] is recorded in the
    correction map when its key is not [__proto__], and whatever its key it
    changes no output entry: the merged batch is the one the response
    without that line gives, and it has [L] entries. *)
Theorem stray_key_no_effect (resultText : jsstring)
    (currentBatch : list Entry) (lines1 lines2 : list jsstring)
    (line idx txt : jsstring) :
  split NL resultText = lines1 ++ line :: lines2 ->
  lineEntry line = Some (idx, txt) ->
  (forall i, 1 <= i <= length currentBatch -> idx <> toString i) ->
  (idx <> proto_key -> recordLines (lines1 ++ [line]) !! idx = Some txt)
  /\ reconcile resultText currentBatch
     = safeBatch (recordLines (lines1 ++ lines2)) currentBatch
  /\ length (reconcile resultText currentBatch) = length currentBatch.
Proof.
  intros Hsplit Hline Hstray. split; [|split].
  - intros Hproto. unfold recordLines. rewrite fold_left_app. simpl.
    unfold recordLine at 1. rewrite Hline. by apply setProp_lookup_eq.
  - unfold reconcile, fixedLinesMap. rewrite Hsplit.
    apply safeBatch_ext. intros i Hi. unfold recordLines.
    rewrite !fold_left_app. simpl.
    apply (recordLines_agree idx).
    + intros k' Hk'. unfold recordLine at 1. rewrite Hline.
      by apply setProp_lookup_ne.
    + intros Heq. by apply (Hstray i Hi).
  - apply safeBatch_length.
Qed.

Lemma stray_key_no_effect_witness :
  (u16 "03" <> proto_key ->
   recordLines ([] ++ [u16 "03>>>x"]) !! u16 "03" = Some (u16 "x"))
  /\ reconcile (u16 "03>>>x" ++ NL ++ u16 "1>>>fixed one") Sample.two
     = safeBatch (recordLines ([] ++ [u16 "1>>>fixed one"])) Sample.two
  /\ length (reconcile (u16 "03>>>x" ++ NL ++ u16 "1>>>fixed one")
               Sample.two)
     = length Sample.two.
Proof.
  apply (stray_key_no_effect
           (u16 "03>>>x" ++ NL ++ u16 "1>>>fixed one") Sample.two
           [] [u16 "1>>>fixed one"] (u16 "03>>>x") (u16 "03") (u16 "x")).
  - vm_compute. reflexivity.
  - vm_compute. reflexivity.
  - intros i Hi. simpl in Hi.
    assert (i = 1 \/ i = 2) as [-> | ->] by lia; vm_compute; discriminate.
Defined.

(** ** The batch orchestrator *)

Lemma bind_Normal {A B} (m : M A) (f : A -> M B) (w w' : World) (b : B) :
  (m ≫= f) w = (Normal b, w') ->
  exists a w1, m w = (Normal a, w1) /\ f a w1 = (Normal b, w').
Proof.
  unfold mbind, M_bind. destruct (m w) as [[a|e] w1]; intros H; [|done].
  by exists a, w1.
Qed.

Lemma ret_Normal {A} (a b : A) (w w' : World) :
  (mret a : M A) w = (Normal b, w') -> a = b /\ w = w'.
Proof. unfold mret, M_ret. by intros [= -> ->]. Qed.

Lemma frame_eq (a b : Entry) :
  frame a = frame b -> a = withText b (text a).
Proof. destruct a, b. unfold frame, withText. simpl. by intros [= -> -> -> -> ->]. Qed.

Lemma reconcile_frame (resultText : jsstring) (currentBatch : list Entry) :
  frame <$> reconcile resultText currentBatch = frame <$> currentBatch.
Proof.
  unfold reconcile, safeBatch. rewrite fmap_imap. apply list_eq. intros i.
  rewrite list_lookup_imap, list_lookup_fmap. by destruct (currentBatch !! i).
Qed.

Section OrchestratorFacts.
Variable BATCH_SIZE : nat.
Variable excerptLength : nat.
Variable cooldown : Z.
Variable addLog : LogEvent -> M unit.
Variable startLogs : M unit.
Variable callGeminiWithRetry : Prompt -> M (option jsstring).
Variable checkResult : option jsstring -> M jsstring.
Variable fromSrt : jsstring -> list Entry.
Variable toSrt : list Entry -> jsstring.
Hypothesis BATCH_SIZE_pos : 0 < BATCH_SIZE.

Let round :=
  batchRound BATCH_SIZE excerptLength cooldown addLog callGeminiWithRetry
    checkResult.
Let loop :=
  batchLoop BATCH_SIZE excerptLength cooldown addLog callGeminiWithRetry
    checkResult.
Let run :=
  pipeline BATCH_SIZE excerptLength cooldown addLog callGeminiWithRetry
    checkResult fromSrt toSrt.

(** A round that completes appends the merge of its batch with some
    response text. *)
Lemma batchRound_Normal (scriptText : jsstring) (srtArray : list Entry)
    (totalBatches i : nat) (processedArray out : list Entry)
    (w w' : World) :
  round scriptText srtArray totalBatches i processedArray w
  = (Normal out, w') ->
  exists resultText,
    out = processedArray
          ++ reconcile resultText (slice i (i + BATCH_SIZE) srtArray).
Proof.
  unfold round, batchRound. intros H.
  apply bind_Normal in H as (? & w1 & _ & H).
  apply bind_Normal in H as (r & w2 & _ & H).
  apply bind_Normal in H as (resultText & w3 & _ & H).
  apply bind_Normal in H as (? & w4 & _ & H).
  apply bind_Normal in H as (? & w5 & _ & H).
  apply ret_Normal in H as [<- _]. by exists resultText.
Qed.

(** The rounds of fuel the loop is given are enough. *)
Lemma batchLoop_fuel_enough (scriptText : jsstring)
    (srtArray : list Entry) (totalBatches : nat) (fuel1 fuel2 i : nat)
    (processedArray : list Entry) (w : World) :
  length srtArray <= i + fuel1 * BATCH_SIZE ->
  length srtArray <= i + fuel2 * BATCH_SIZE ->
  loop fuel1 scriptText srtArray totalBatches i processedArray w
  = loop fuel2 scriptText srtArray totalBatches i processedArray w.
Proof.
  unfold loop. revert fuel2 i processedArray w.
  induction fuel1 as [|fuel1 IH]; intros fuel2 i acc w H1 H2;
    destruct fuel2 as [|fuel2]; simpl;
    destruct (Nat.ltb_spec i (length srtArray)); try done; try lia.
  unfold mbind, M_bind.
  destruct (batchRound _ _ _ _ _ _ _ _ _ _ _ _) as [[a|e] w1];
    [|done].
  apply IH; lia.
Qed.

Lemma batchLoop_frame (scriptText : jsstring) (srtArray : list Entry)
    (totalBatches : nat) (fuel i : nat) (processedArray out : list Entry)
    (w w' : World) :
  length srtArray <= i + fuel * BATCH_SIZE ->
  frame <$> processedArray = frame <$> take i srtArray ->
  loop fuel scriptText srtArray totalBatches i processedArray w
  = (Normal out, w') ->
  frame <$> out = frame <$> srtArray.
Proof.
  unfold loop. revert i processedArray w.
  induction fuel as [|fuel IH]; intros i acc w Hfuel Hacc; simpl;
    destruct (Nat.ltb_spec i (length srtArray)); try lia.
  - intros [<- _]%ret_Normal. by rewrite Hacc, take_ge.
  - intros (acc' & w1 & Hround & Hloop)%bind_Normal.
    apply batchRound_Normal in Hround as [resultText ->].
    apply (IH _ _ _) in Hloop; [done | lia |].
    rewrite fmap_app, reconcile_frame, Hacc, <- fmap_app. unfold slice.
    replace (i + BATCH_SIZE - i) with BATCH_SIZE by lia.
    by rewrite take_take_drop.
  - intros [<- _]%ret_Normal. by rewrite Hacc, take_ge.
Qed.

Lemma pipeline_frame (scriptText fileText : jsstring) (srtFile : File)
    (w w' : World) (out : list Entry) :
  file_text srtFile = Some fileText ->
  run scriptText srtFile w = (Normal out, w') ->
  frame <$> out = frame <$> fromSrt fileText.
Proof.
  intros Hfile. unfold run, pipeline, readFileAsText.
  rewrite Hfile. intros H.
  apply bind_Normal in H as (? & w1 & [<- <-]%ret_Normal & H).
  apply bind_Normal in H as (? & w2 & _ & H).
  destruct (length (fromSrt fileText) =? 0); [done|].
  apply bind_Normal in H as (processedArray & w3 & Hloop & H).
  apply bind_Normal in H as (? & w4 & _ & H).
  apply bind_Normal in H as (? & w5 & _ & H).
  apply bind_Normal in H as (? & w6 & _ & H).
  apply ret_Normal in H as [<- _].
  apply batchLoop_frame in Hloop; [done | nia | done].
Qed.

(** C1 (count invariant).  Whatever the response text, the merged batch
    has as many entries as the batch; so a run that completes hands the
    encoder exactly as many entries as the parser decoded. *)
Theorem count_invariant (scriptText fileText : jsstring) (srtFile : File)
    (w w' : World) (out : list Entry) :
  file_text srtFile = Some fileText ->
  run scriptText srtFile w = (Normal out, w') ->
  (forall (resultText : jsstring) (currentBatch : list Entry),
      length (reconcile resultText currentBatch) = length currentBatch)
  /\ length out = length (fromSrt fileText).
Proof.
  intros Hfile Hrun. split.
  - intros resultText currentBatch. apply safeBatch_length.
  - apply (pipeline_frame _ _ _ _ _ _ Hfile) in Hrun.
    apply (f_equal length) in Hrun. by rewrite !length_fmap in Hrun.
Qed.

(** C4 (order invariant).  In a run that completes, the entry at global
    position [i] of the output is the entry at position [i] of the input
    with, at most, another text: every other field, the start and end
    times among them, is the input's. *)
Theorem order_invariant (scriptText fileText : jsstring) (srtFile : File)
    (w w' : World) (out : list Entry) :
  file_text srtFile = Some fileText ->
  run scriptText srtFile w = (Normal out, w') ->
  length out = length (fromSrt fileText)
  /\ forall (i : nat) (item : Entry),
       fromSrt fileText !! i = Some item ->
       exists o, out !! i = Some o
                 /\ o = withText item (text o)
                 /\ id o = id item
                 /\ startTime o = startTime item
                 /\ startSeconds o = startSeconds item
                 /\ endTime o = endTime item
                 /\ endSeconds o = endSeconds item.
Proof.
  intros Hfile Hrun.
  apply (pipeline_frame _ _ _ _ _ _ Hfile) in Hrun. split.
  - apply (f_equal length) in Hrun. by rewrite !length_fmap in Hrun.
  - intros i item Hitem.
    apply (f_equal (fun l => l !! i)) in Hrun.
    rewrite !list_lookup_fmap, Hitem in Hrun.
    destruct (out !! i) as [o|]; [|done].
    simpl in Hrun. apply (inj Some) in Hrun. apply frame_eq in Hrun.
    exists o. split; [done|]. split; [done|]. by rewrite Hrun.
Qed.
End OrchestratorFacts.

Lemma count_invariant_witness :
  (forall (resultText : jsstring) (currentBatch : list Entry),
      length (reconcile resultText currentBatch) = length currentBatch)
  /\ length Sample.processed = length (Sample.fromSrt (u16 "1")).
Proof.
  apply (count_invariant App.BATCH_SIZE App.excerptLength App.cooldown
           App.addLog
           (fun fullPrompt =>
              App.callGeminiWithRetry Sample.network fullPrompt
                App.defaultRetries)
           App.checkResult Sample.fromSrt Sample.toSrt
           ltac:(unfold App.BATCH_SIZE; lia)
           (u16 "script") (u16 "1") Sample.file initial
           (Sample.run.2) Sample.processed).
  - reflexivity.
  - vm_compute. reflexivity.
Defined.

Lemma order_invariant_witness :
  length Sample.processed = length (Sample.fromSrt (u16 "1"))
  /\ forall (i : nat) (item : Entry),
       Sample.fromSrt (u16 "1") !! i = Some item ->
       exists o, Sample.processed !! i = Some o
                 /\ o = withText item (text o)
                 /\ id o = id item
                 /\ startTime o = startTime item
                 /\ startSeconds o = startSeconds item
                 /\ endTime o = endTime item
                 /\ endSeconds o = endSeconds item.
Proof.
  apply (order_invariant App.BATCH_SIZE App.excerptLength App.cooldown
           App.addLog
           (fun fullPrompt =>
              App.callGeminiWithRetry Sample.network fullPrompt
                App.defaultRetries)
           App.checkResult Sample.fromSrt Sample.toSrt
           ltac:(unfold App.BATCH_SIZE; lia)
           (u16 "script") (u16 "1") Sample.file initial
           (Sample.run.2) Sample.processed).
  - reflexivity.
  - vm_compute. reflexivity.
Defined.

(** ** The partition into batches *)

Section BatchPartition.
Variable BATCH_SIZE : nat.
Hypothesis BATCH_SIZE_pos : 0 < BATCH_SIZE.

Lemma slice_length (srtArray : list Entry) (i : nat) :
  length (slice i (i + BATCH_SIZE) srtArray)
  = min BATCH_SIZE (length srtArray - i).
Proof.
  unfold slice. rewrite length_take, length_drop. f_equal. lia.
Qed.

(** Round [k] of the loop started at [i] works on the entries from
    [i + k * BATCH_SIZE] on, as long as that index is inside the array. *)
Lemma batches_from_lookup (srtArray : list Entry) (fuel i k : nat) :
  length srtArray <= i + fuel * BATCH_SIZE ->
  batches_from BATCH_SIZE fuel i srtArray !! k
  = if i + k * BATCH_SIZE <? length srtArray
    then Some (slice (i + k * BATCH_SIZE)
                 (i + k * BATCH_SIZE + BATCH_SIZE) srtArray)
    else None.
Proof.
  revert i k. induction fuel as [|fuel IH]; intros i k Hfuel; simpl;
    destruct (Nat.ltb_spec i (length srtArray)); try lia.
  - destruct (Nat.ltb_spec (i + k * BATCH_SIZE) (length srtArray));
      [nia | done].
  - destruct k as [|k]; simpl.
    + rewrite Nat.add_0_r.
      by destruct (Nat.ltb_spec i (length srtArray)); [|lia].
    + rewrite IH by lia.
      by replace (i + BATCH_SIZE + k * BATCH_SIZE)
        with (i + (BATCH_SIZE + k * BATCH_SIZE)) by lia.
  - destruct (Nat.ltb_spec (i + k * BATCH_SIZE) (length srtArray));
      [nia | done].
Qed.

Lemma batches_from_concat (srtArray : list Entry) (fuel i : nat) :
  length srtArray <= i + fuel * BATCH_SIZE ->
  concat (batches_from BATCH_SIZE fuel i srtArray) = drop i srtArray.
Proof.
  revert i. induction fuel as [|fuel IH]; intros i Hfuel; simpl;
    destruct (Nat.ltb_spec i (length srtArray)); try lia;
    try (by rewrite drop_ge).
  simpl. rewrite IH by lia. unfold slice.
  replace (i + BATCH_SIZE - i) with BATCH_SIZE by lia.
  by rewrite <- drop_drop, take_drop.
Qed.

Lemma batches_lookup (srtArray : list Entry) (k : nat) :
  batches BATCH_SIZE srtArray !! k
  = if k * BATCH_SIZE <? length srtArray
    then Some (slice (k * BATCH_SIZE) (k * BATCH_SIZE + BATCH_SIZE)
                 srtArray)
    else None.
Proof. unfold batches. rewrite batches_from_lookup; [done | nia]. Qed.

(** The number of batches is the least [n] with
    [length srtArray <= n * BATCH_SIZE]. *)
Lemma batches_count (srtArray : list Entry) :
  length srtArray <= length (batches BATCH_SIZE srtArray) * BATCH_SIZE
  /\ length (batches BATCH_SIZE srtArray) * BATCH_SIZE
     < length srtArray + BATCH_SIZE.
Proof.
  set (n := length (batches BATCH_SIZE srtArray)). split.
  - assert (batches BATCH_SIZE srtArray !! n = None) as Hn
      by (apply lookup_ge_None; lia).
    rewrite batches_lookup in Hn.
    by destruct (Nat.ltb_spec (n * BATCH_SIZE) (length srtArray)).
  - destruct n as [|m] eqn:E; [lia|].
    assert (is_Some (batches BATCH_SIZE srtArray !! m)) as [b Hb]
      by (apply lookup_lt_is_Some; lia).
    rewrite batches_lookup in Hb.
    destruct (Nat.ltb_spec (m * BATCH_SIZE) (length srtArray)); [lia|done].
Qed.

Lemma batches_total (srtArray : list Entry) :
  length (batches BATCH_SIZE srtArray) = totalBatchesOf BATCH_SIZE srtArray.
Proof.
  destruct (batches_count srtArray) as [Hlo Hhi]. unfold totalBatchesOf.
  pose proof (Nat.div_mod_eq (length srtArray) BATCH_SIZE) as Hdm.
  pose proof (Nat.mod_upper_bound (length srtArray) BATCH_SIZE) as Hr.
  destruct (Nat.eqb_spec (length srtArray mod BATCH_SIZE) 0); nia.
Qed.

(** The batches [batches] lists: their number is [ceil(N / BATCH_SIZE)];
    batch [k] is the slice [k*B .. k*B + B) of the sequence; every batch
    but the last has [BATCH_SIZE] entries. *)
Lemma batches_partition (srtArray : list Entry) :
  length (batches BATCH_SIZE srtArray) = totalBatchesOf BATCH_SIZE srtArray
  /\ (length srtArray
      <= length (batches BATCH_SIZE srtArray) * BATCH_SIZE
      < length srtArray + BATCH_SIZE)
  /\ concat (batches BATCH_SIZE srtArray) = srtArray
  /\ forall (k : nat) (batch : list Entry),
       batches BATCH_SIZE srtArray !! k = Some batch ->
       batch = slice (k * BATCH_SIZE) (k * BATCH_SIZE + BATCH_SIZE)
                 srtArray
       /\ (S k < length (batches BATCH_SIZE srtArray) ->
           length batch = BATCH_SIZE)
       /\ (S k = length (batches BATCH_SIZE srtArray) ->
           length batch
           = if length srtArray mod BATCH_SIZE =? 0 then BATCH_SIZE
             else length srtArray mod BATCH_SIZE).
Proof.
  split; [apply batches_total|]. split; [apply batches_count|].
  split.
  { unfold batches. rewrite batches_from_concat by nia. apply drop_0. }
  intros k batch Hk. rewrite batches_lookup in Hk.
  destruct (Nat.ltb_spec (k * BATCH_SIZE) (length srtArray)); [|done].
  injection Hk as <-. split; [done|].
  rewrite slice_length, batches_total. unfold totalBatchesOf.
  pose proof (Nat.div_mod_eq (length srtArray) BATCH_SIZE) as Hdm.
  pose proof (Nat.mod_upper_bound (length srtArray) BATCH_SIZE) as Hr.
  split; intros Hlast;
    destruct (Nat.eqb_spec (length srtArray mod BATCH_SIZE) 0); nia.
Qed.
End BatchPartition.

(** The loop runs its body once on each of these batches, in order. *)
Section LoopPartition.
Variable BATCH_SIZE : nat.
Variable excerptLength : nat.
Variable cooldown : Z.
Variable addLog : LogEvent -> M unit.
Variable callGeminiWithRetry : Prompt -> M (option jsstring).
Variable checkResult : option jsstring -> M jsstring.
Hypothesis BATCH_SIZE_pos : 0 < BATCH_SIZE.

Lemma batchLoop_forBatches (scriptText : jsstring) (srtArray : list Entry)
    (totalBatches fuel q : nat) (processedArray : list Entry) (w : World) :
  batchLoop BATCH_SIZE excerptLength cooldown addLog callGeminiWithRetry
    checkResult fuel scriptText srtArray totalBatches (q * BATCH_SIZE)
    processedArray w
  = forBatches
      (batchBody excerptLength cooldown addLog callGeminiWithRetry
         checkResult scriptText totalBatches)
      q (batches_from BATCH_SIZE fuel (q * BATCH_SIZE) srtArray)
      processedArray w.
Proof.
  revert q processedArray w.
  induction fuel as [|fuel IH]; intros q acc w; simpl;
    destruct (q * BATCH_SIZE <? length srtArray); try reflexivity.
  simpl. unfold mbind, M_bind.
  unfold batchRound at 1. rewrite Nat.div_mul by lia.
  fold (batchBody excerptLength cooldown addLog callGeminiWithRetry
          checkResult scriptText totalBatches (q + 1)
          (slice (q * BATCH_SIZE) (q * BATCH_SIZE + BATCH_SIZE) srtArray)
          acc).
  destruct (batchBody _ _ _ _ _ _ _ _ _ _ _) as [[acc'|e] w1];
    [|reflexivity].
  replace (q * BATCH_SIZE + BATCH_SIZE) with (S q * BATCH_SIZE) by lia.
  apply IH.
Qed.
End LoopPartition.


(** C6 (batch partition law).  The batch loop, and with it the run, is the
    loop body executed on the batches [batches BATCH_SIZE srtArray] one
    after the other, the [k]-th as [currentBatch] with batch index [k+1];
    these batches are exactly [ceil(N / BATCH_SIZE)] in number; batch [k]
    is the slice [k*B .. k*B + B) of the sequence, so the batches are
    contiguous, do not overlap and concatenate to the whole sequence;
    every batch but the last has [BATCH_SIZE] entries and the last has
    [N mod B] of them, or [BATCH_SIZE] when that is zero. *)
Theorem batch_partition (BATCH_SIZE excerptLength : nat) (cooldown : Z)
    (addLog : LogEvent -> M unit)
    (callGeminiWithRetry : Prompt -> M (option jsstring))
    (checkResult : option jsstring -> M jsstring)
    (scriptText : jsstring) (srtArray : list Entry) :
  0 < BATCH_SIZE ->
  (forall (totalBatches : nat) (processedArray : list Entry) (w : World),
      batchLoop BATCH_SIZE excerptLength cooldown addLog callGeminiWithRetry
        checkResult (length srtArray) scriptText srtArray totalBatches 0
        processedArray w
      = forBatches
          (batchBody excerptLength cooldown addLog callGeminiWithRetry
             checkResult scriptText totalBatches)
          0 (batches BATCH_SIZE srtArray) processedArray w)
  /\ (forall (fromSrt : jsstring -> list Entry)
        (toSrt : list Entry -> jsstring) (srtFile : File) (w : World),
         pipeline BATCH_SIZE excerptLength cooldown addLog
           callGeminiWithRetry checkResult fromSrt toSrt scriptText srtFile w
         = (fileText ← readFileAsText srtFile;
            addLog (LogParsed (length (fromSrt fileText)));;
            if length (fromSrt fileText) =? 0 then throw EmptySrt
            else
              processedArray ←
                forBatches
                  (batchBody excerptLength cooldown addLog
                     callGeminiWithRetry checkResult scriptText
                     (totalBatchesOf BATCH_SIZE (fromSrt fileText)))
                  0 (batches BATCH_SIZE (fromSrt fileText)) [];
              setFinalSrt (toSrt processedArray);;
              addLog LogDone;;
              setIsProcessing false;;
              mret processedArray) w)
  /\ length (batches BATCH_SIZE srtArray) = totalBatchesOf BATCH_SIZE srtArray
  /\ (length srtArray
      <= length (batches BATCH_SIZE srtArray) * BATCH_SIZE
      < length srtArray + BATCH_SIZE)
  /\ concat (batches BATCH_SIZE srtArray) = srtArray
  /\ forall (k : nat) (batch : list Entry),
       batches BATCH_SIZE srtArray !! k = Some batch ->
       batch = slice (k * BATCH_SIZE) (k * BATCH_SIZE + BATCH_SIZE)
                 srtArray
       /\ (S k < length (batches BATCH_SIZE srtArray) ->
           length batch = BATCH_SIZE)
       /\ (S k = length (batches BATCH_SIZE srtArray) ->
           length batch
           = if length srtArray mod BATCH_SIZE =? 0 then BATCH_SIZE
             else length srtArray mod BATCH_SIZE).
Proof.
  intros Hpos. split; [|split].
  - intros totalBatches acc w. unfold batches.
    apply (batchLoop_forBatches BATCH_SIZE excerptLength cooldown addLog
             callGeminiWithRetry checkResult Hpos scriptText srtArray
             totalBatches (length srtArray) 0 acc w).
  - intros fromSrt toSrt srtFile w.
    unfold pipeline, readFileAsText, mbind, M_bind.
    destruct (file_text srtFile) as [fileText|]; [|reflexivity].
    unfold mret, M_ret.
    destruct (addLog (LogParsed (length (fromSrt fileText))) w)
      as [[[]|e] w1]; [|reflexivity].
    destruct (length (fromSrt fileText) =? 0); [reflexivity|].
    unfold batches.
    pose proof (batchLoop_forBatches BATCH_SIZE excerptLength cooldown addLog
                  callGeminiWithRetry checkResult Hpos scriptText
                  (fromSrt fileText)
                  (totalBatchesOf BATCH_SIZE (fromSrt fileText))
                  (length (fromSrt fileText)) 0 [] w1) as Hloop.
    change (0 * BATCH_SIZE) with 0 in Hloop. by rewrite Hloop.
  - apply (batches_partition BATCH_SIZE Hpos srtArray).
Qed.

Lemma batch_partition_witness :
  (forall (totalBatches : nat) (processedArray : list Entry) (w : World),
      batchLoop App.BATCH_SIZE App.excerptLength App.cooldown App.addLog
        (fun fullPrompt =>
           App.callGeminiWithRetry Sample.network fullPrompt
             App.defaultRetries)
        App.checkResult (length (replicate 60 (Sample.entry 1 "x")))
        (u16 "script") (replicate 60 (Sample.entry 1 "x")) totalBatches 0
        processedArray w
      = forBatches
          (batchBody App.excerptLength App.cooldown App.addLog
             (fun fullPrompt =>
                App.callGeminiWithRetry Sample.network fullPrompt
                  App.defaultRetries)
             App.checkResult (u16 "script") totalBatches)
          0 (batches App.BATCH_SIZE (replicate 60 (Sample.entry 1 "x")))
          processedArray w)
  /\ (forall (fromSrt : jsstring -> list Entry)
        (toSrt : list Entry -> jsstring) (srtFile : File) (w : World),
         pipeline App.BATCH_SIZE App.excerptLength App.cooldown App.addLog
           (fun fullPrompt =>
              App.callGeminiWithRetry Sample.network fullPrompt
                App.defaultRetries)
           App.checkResult fromSrt toSrt (u16 "script") srtFile w
         = (fileText ← readFileAsText srtFile;
            App.addLog (LogParsed (length (fromSrt fileText)));;
            if length (fromSrt fileText) =? 0 then throw EmptySrt
            else
              processedArray ←
                forBatches
                  (batchBody App.excerptLength App.cooldown App.addLog
                     (fun fullPrompt =>
                        App.callGeminiWithRetry Sample.network fullPrompt
                          App.defaultRetries)
                     App.checkResult (u16 "script")
                     (totalBatchesOf App.BATCH_SIZE (fromSrt fileText)))
                  0 (batches App.BATCH_SIZE (fromSrt fileText)) [];
              setFinalSrt (toSrt processedArray);;
              App.addLog LogDone;;
              setIsProcessing false;;
              mret processedArray) w)
  /\ length (batches App.BATCH_SIZE (replicate 60 (Sample.entry 1 "x")))
     = totalBatchesOf App.BATCH_SIZE (replicate 60 (Sample.entry 1 "x"))
  /\ (length (replicate 60 (Sample.entry 1 "x"))
      <= length (batches App.BATCH_SIZE (replicate 60 (Sample.entry 1 "x")))
         * App.BATCH_SIZE
      < length (replicate 60 (Sample.entry 1 "x")) + App.BATCH_SIZE)
  /\ concat (batches App.BATCH_SIZE (replicate 60 (Sample.entry 1 "x")))
     = replicate 60 (Sample.entry 1 "x")
  /\ forall (k : nat) (batch : list Entry),
       batches App.BATCH_SIZE (replicate 60 (Sample.entry 1 "x")) !! k
       = Some batch ->
       batch = slice (k * App.BATCH_SIZE)
                 (k * App.BATCH_SIZE + App.BATCH_SIZE)
                 (replicate 60 (Sample.entry 1 "x"))
       /\ (S k < length (batches App.BATCH_SIZE
                           (replicate 60 (Sample.entry 1 "x"))) ->
           length batch = App.BATCH_SIZE)
       /\ (S k = length (batches App.BATCH_SIZE
                           (replicate 60 (Sample.entry 1 "x"))) ->
           length batch
           = if length (replicate 60 (Sample.entry 1 "x"))
                mod App.BATCH_SIZE =? 0
             then App.BATCH_SIZE
             else length (replicate 60 (Sample.entry 1 "x"))
                  mod App.BATCH_SIZE).
Proof.
  apply (batch_partition App.BATCH_SIZE App.excerptLength App.cooldown
           App.addLog
           (fun fullPrompt =>
              App.callGeminiWithRetry Sample.network fullPrompt
                App.defaultRetries)
           App.checkResult (u16 "script")
           (replicate 60 (Sample.entry 1 "x"))).
  unfold App.BATCH_SIZE. lia.
Defined.

(** ** Empty input *)

(** C9.  When the file decodes to no entry, a run whose preconditions hold
    is aborted with the error "SRT 文件为空": no request has been sent, nothing
    has been slept, no final text is set and the alert names that error.
    Both variants do so. *)
Theorem empty_input_fails_before_network (network : nat -> FetchOutcome)
    (fromSrt : jsstring -> list Entry) (toSrt : list Entry -> jsstring)
    (apiKey scriptText fileText : jsstring) (file : File) (w : World) :
  apiKey <> [] ->
  scriptText <> [] ->
  file_text file = Some fileText ->
  fromSrt fileText = [] ->
  (let r := App.processSrt network fromSrt toSrt apiKey scriptText
              (Some file) w in
   r.1 = Normal tt
   /\ requests r.2 = requests w
   /\ slept r.2 = slept w
   /\ finalSrt r.2 = finalSrt w
   /\ isProcessing r.2 = false
   /\ logs r.2 = [LogFatal EmptySrt; LogParsed 0; LogStart]
   /\ alerts r.2 = alerts w ++ [AlertAborted EmptySrt])
  /\ (let r := Variant.processSrt network fromSrt toSrt apiKey scriptText
                 (Some file) w in
      r.1 = Normal tt
      /\ requests r.2 = requests w
      /\ slept r.2 = slept w
      /\ finalSrt r.2 = finalSrt w
      /\ isProcessing r.2 = false
      /\ logs r.2 = [LogStart; LogStrategy; LogParsed 0; LogFatal EmptySrt]
      /\ alerts r.2 = alerts w ++ [AlertAborted EmptySrt]).
Proof.
  intros Hkey Hscript Hfile Hempty.
  destruct apiKey as [|k apiKey]; [done|].
  destruct scriptText as [|s scriptText]; [done|].
  unfold App.processSrt, Variant.processSrt, processSrt, pipeline,
    readFileAsText.
  rewrite Hfile. run_monad. rewrite Hempty. simpl. run_monad. simpl. done.
Qed.

Lemma empty_input_fails_before_network_witness :
  (let r := App.processSrt Sample.network Sample.fromSrt_none Sample.toSrt
              (u16 "key") (u16 "script") (Some Sample.file) initial in
   r.1 = Normal tt
   /\ requests r.2 = requests initial
   /\ slept r.2 = slept initial
   /\ finalSrt r.2 = finalSrt initial
   /\ isProcessing r.2 = false
   /\ logs r.2 = [LogFatal EmptySrt; LogParsed 0; LogStart]
   /\ alerts r.2 = alerts initial ++ [AlertAborted EmptySrt])
  /\ (let r := Variant.processSrt Sample.network Sample.fromSrt_none
                 Sample.toSrt (u16 "key") (u16 "script") (Some Sample.file)
                 initial in
      r.1 = Normal tt
      /\ requests r.2 = requests initial
      /\ slept r.2 = slept initial
      /\ finalSrt r.2 = finalSrt initial
      /\ isProcessing r.2 = false
      /\ logs r.2 = [LogStart; LogStrategy; LogParsed 0; LogFatal EmptySrt]
      /\ alerts r.2 = alerts initial ++ [AlertAborted EmptySrt]).
Proof.
  apply (empty_input_fails_before_network Sample.network Sample.fromSrt_none
           Sample.toSrt (u16 "key") (u16 "script") (u16 "1") Sample.file
           initial).
  - discriminate.
  - discriminate.
  - reflexivity.
  - reflexivity.
Defined.

(** ** The resilient invoker *)

Lemma ok_not_429 (r : Response) : ok r = true -> (status r =? 429)%Z = false.
Proof. unfold ok. lia. Qed.

Lemma ok_not_503 (r : Response) : ok r = true -> (status r =? 503)%Z = false.
Proof. unfold ok. lia. Qed.

(** Case analysis of one round on the outcome of its request. *)
Ltac round_cases r :=
  let Hok := fresh "Hok" in
  destruct (ok r) eqn:Hok;
  [rewrite (ok_not_429 _ Hok), (ok_not_503 _ Hok)|];
  simpl; repeat case_match; simpl.

Section Invokers.
Variable network : nat -> FetchOutcome.
Variable fullPrompt : Prompt.
Variable retries : Z.

(** A round sends one request, and it returns a value only when the
    outcome of that request carries one. *)
Lemma App_round_spec (i : Z) (w : World) :
  requests (App.round network fullPrompt retries i w).2
  = requests w ++ [fullPrompt]
  /\ forall v,
       (App.round network fullPrompt retries i w).1 = Normal (Return v) ->
       generatedText (network (length (requests w))) = Some v.
Proof.
  unfold App.round, App.tryBlock, App.generated, fetch, generatedText.
  run_monad.
  destruct (network (length (requests w))) as [|r].
  - simpl. by destruct (i =? retries - 1)%Z.
  - round_cases r; simplify_eq/=; (split; [done|]); intros v Hv;
      by simplify_eq.
Qed.

Lemma Variant_round_spec (i : Z) (w : World) :
  requests (Variant.round network fullPrompt retries i w).2
  = requests w ++ [fullPrompt]
  /\ forall v,
       (Variant.round network fullPrompt retries i w).1
       = Normal (Return v) ->
       generatedText (network (length (requests w))) = Some v.
Proof.
  unfold Variant.round, Variant.tryBlock, Variant.generated, fetch,
    generatedText.
  run_monad.
  destruct (network (length (requests w))) as [|r].
  - simpl. by destruct (i =? retries - 1)%Z.
  - round_cases r; simplify_eq/=; (split; [done|]); intros v Hv;
      by simplify_eq.
Qed.

(** [src/src/App.js]: at most [remaining] requests go out, and the loop
    returns a value only when the outcome of one of them carries it;
    otherwise it throws. *)
Lemma App_attempts_spec (remaining : nat) (i : Z) (w : World) :
  (exists n, n <= remaining
             /\ requests (App.attempts network fullPrompt retries
                            remaining i w).2
                = requests w ++ replicate n fullPrompt)
  /\ forall v,
       (App.attempts network fullPrompt retries remaining i w).1
       = Normal v ->
       exists k, k < remaining
                 /\ generatedText (network (length (requests w) + k))
                    = Some v.
Proof.
  revert i w. induction remaining as [|remaining IH]; intros i w.
  - simpl. split; [|done]. exists 0. split; [lia|]. simpl.
    by rewrite app_nil_r.
  - simpl. unfold mbind, M_bind.
    destruct (App_round_spec i w) as [Hreq Hret].
    destruct (App.round network fullPrompt retries i w)
      as [[[|v']|e] w1]; simpl in *.
    + destruct (IH (i + 1)%Z w1) as [(n & Hn & Hreqs) Hval]. split.
      * exists (S n). split; [lia|]. rewrite Hreqs, Hreq. simpl.
        by rewrite <- app_assoc.
      * intros v Hv. destruct (Hval v Hv) as (k & Hk & Hgen).
        exists (S k). split; [lia|]. rewrite Hreq, length_app in Hgen.
        simpl in Hgen.
        by replace (length (requests w) + S k)
          with (length (requests w) + 1 + k) by lia.
    + split.
      * exists 1. split; [lia|]. by rewrite Hreq.
      * intros v [= <-]. exists 0. split; [lia|]. rewrite Nat.add_0_r.
        by apply Hret.
    + split; [|done]. exists 1. split; [lia|]. by rewrite Hreq.
Qed.

(** [src/unnamed/part_000]: at most [remaining] requests go out. *)
Lemma Variant_attempts_bound (remaining : nat) (i : Z) (w : World) :
  exists n, n <= remaining
            /\ requests (Variant.attempts network fullPrompt retries
                           remaining i w).2
               = requests w ++ replicate n fullPrompt.
Proof.
  revert i w. induction remaining as [|remaining IH]; intros i w.
  - simpl. exists 0. split; [lia|]. simpl. by rewrite app_nil_r.
  - simpl. unfold mbind, M_bind.
    destruct (Variant_round_spec i w) as [Hreq _].
    destruct (Variant.round network fullPrompt retries i w)
      as [[[|v']|e] w1]; simpl in *.
    + destruct (IH (i + 1)%Z w1) as (n & Hn & Hreqs).
      exists (S n). split; [lia|]. rewrite Hreqs, Hreq. simpl.
      by rewrite <- app_assoc.
    + exists 1. split; [lia|]. by rewrite Hreq.
    + exists 1. split; [lia|]. by rewrite Hreq.
Qed.

(** The retry bound, in both variants: a call makes at most [retries]
    requests. *)
Lemma retry_bound (w : World) :
  length (requests (App.callGeminiWithRetry network fullPrompt retries
                      w).2)
  <= length (requests w) + Z.to_nat retries
  /\ length (requests (Variant.callGeminiWithRetry network fullPrompt
                         retries w).2)
     <= length (requests w) + Z.to_nat retries.
Proof.
  unfold App.callGeminiWithRetry, Variant.callGeminiWithRetry. split.
  - destruct (App_attempts_spec (Z.to_nat retries) 0%Z w)
      as [(n & Hn & ->) _].
    rewrite length_app, length_replicate. lia.
  - destruct (Variant_attempts_bound (Z.to_nat retries) 0%Z w)
      as (n & Hn & ->).
    rewrite length_app, length_replicate. lia.
Qed.

(** [src/src/App.js] keeps the contract of the invoker: when none of the
    [retries] outcomes the call can meet carries a value, the call
    throws. *)
Lemma App_exhausted_throws (w : World) :
  (forall k, k < Z.to_nat retries ->
             generatedText (network (length (requests w) + k)) = None) ->
  exists error,
    (App.callGeminiWithRetry network fullPrompt retries w).1
    = Throw error.
Proof.
  intros Hnone. unfold App.callGeminiWithRetry.
  destruct (App_attempts_spec (Z.to_nat retries) 0%Z w) as [_ Hval].
  destruct (App.attempts network fullPrompt retries (Z.to_nat retries)
              0%Z w).1 as [v|error] eqn:E; [|by exists error].
  destruct (Hval v eq_refl) as (k & Hk & Hgen).
  by rewrite (Hnone k Hk) in Hgen.
Qed.

(** [src/src/App.js]: the wait after a 429 in round [i] is
    [20000 + i * 10000] ms ... *)
Lemma App_rate_limit_wait (i : Z) (w : World) (r : Response) :
  network (length (requests w)) = Responded r ->
  status r = 429%Z ->
  slept (App.round network fullPrompt retries i w).2
  = slept w ++ [(20000 + i * 10000)%Z].
Proof.
  intros Hnet Hstatus.
  unfold App.round, App.tryBlock, fetch. run_monad.
  rewrite Hnet, Hstatus. simpl. by destruct (i =? retries - 1)%Z.
Qed.

(** ... so it grows strictly with the round. *)
Lemma App_backoff_increasing (j k : Z) (w1 w2 : World) (r1 r2 : Response) :
  (j < k)%Z ->
  network (length (requests w1)) = Responded r1 -> status r1 = 429%Z ->
  network (length (requests w2)) = Responded r2 -> status r2 = 429%Z ->
  exists dj dk,
    slept (App.round network fullPrompt retries j w1).2 = slept w1 ++ [dj]
    /\ slept (App.round network fullPrompt retries k w2).2
       = slept w2 ++ [dk]
    /\ (dj < dk)%Z.
Proof.
  intros Hjk Hn1 Hs1 Hn2 Hs2.
  exists (20000 + j * 10000)%Z, (20000 + k * 10000)%Z.
  rewrite (App_rate_limit_wait j w1 r1 Hn1 Hs1).
  rewrite (App_rate_limit_wait k w2 r2 Hn2 Hs2).
  repeat split; lia.
Qed.
End Invokers.

(** C7, at the failing input.  In [src/unnamed/part_000] a call whose
    three requests are all answered 429 makes its three attempts and then
    returns normally, with [undefined]: no error is raised. *)
Theorem Variant_exhausted_returns_undefined :
  let r := Variant.callGeminiWithRetry Sample.alwaysRateLimited
             Sample.prompt Variant.defaultRetries initial in
  r.1 = Normal None
  /\ length (requests r.2) = 3
  /\ (forall k : nat, generatedText (Sample.alwaysRateLimited k) = None).
Proof. vm_compute. repeat split. Qed.

(** C8, at the failing input.  In [src/unnamed/part_000] the waits after
    three rate-limited attempts of one call are 20 s each: the second is
    not longer than the first. *)
Theorem Variant_backoff_constant :
  slept (Variant.callGeminiWithRetry Sample.alwaysRateLimited
           Sample.prompt Variant.defaultRetries initial).2
  = [20000; 20000; 20000]%Z.
Proof. vm_compute. reflexivity. Qed.

(** ** The scenarios of the specification *)

(** Ten entries in batches of four: batches of 4, 4 and 2 entries. *)
Example scenario_batches_10_4 :
  length <$> batches 4 (replicate 10 (Sample.entry 1 "x")) = [4; 4; 2].
Proof. reflexivity. Qed.

(** A response holding only [1>>>fixed one] corrects the first entry of
    its batch and leaves the others as they were. *)
Example scenario_partial_response :
  text <$> reconcile (u16 "1>>>fixed one")
             [Sample.entry 5 "e"; Sample.entry 6 "f"; Sample.entry 7 "g";
              Sample.entry 8 "h"]
  = [u16 "fixed one"; u16 "f"; u16 "g"; u16 "h"].
Proof. vm_compute. reflexivity. Qed.

(** [src/src/App.js]: rate-limited on attempts 1 and 2, answered on
    attempt 3 of 5: the call returns the text after two waits, the second
    longer than the first. *)
Example scenario_rate_limited_twice :
  let network (k : nat) :=
    match k with
    | 0 | 1 => Sample.rateLimited
    | _ => Sample.generated "1>>>ok"
    end in
  let r := App.callGeminiWithRetry network Sample.prompt 5 initial in
  r.1 = Normal (Some (u16 "1>>>ok"))
  /\ slept r.2 = [20000; 30000]%Z
  /\ length (requests r.2) = 3.
Proof. vm_compute. repeat split. Qed.

(** [src/src/App.js]: five 429 answers exhaust the call, which throws. *)
Example scenario_rate_limit_exhausted :
  (App.callGeminiWithRetry Sample.alwaysRateLimited Sample.prompt
     App.defaultRetries initial).1
  = Throw RateLimitExhausted.
Proof. vm_compute. reflexivity. Qed.

(** The sample run: the first line is corrected, the second kept. *)
Example scenario_sample_run :
  text <$> Sample.processed = [u16 "hello"; u16 "wrld"].
Proof. vm_compute. reflexivity. Qed.

(** * Further properties of the code *)

(** ** Decimal keys *)

Lemma u16_inj (s1 s2 : string) : u16 s1 = u16 s2 -> s1 = s2.
Proof.
  unfold u16. intros H.
  rewrite <- (string_of_list_ascii_of_string s1).
  rewrite <- (string_of_list_ascii_of_string s2). f_equal.
  revert H. generalize (list_ascii_of_string s1) (list_ascii_of_string s2).
  intros l1. induction l1 as [|a l1 IH]; intros [|b l2] H; simpl in H;
    try done.
  injection H as Hab Hl. f_equal; [|by apply IH].
  rewrite <- (ascii_N_embedding a), <- (ascii_N_embedding b). by rewrite Hab.
Qed.

(** Distinct numbers have distinct keys. *)
Lemma toString_inj (n m : nat) : toString n = toString m -> n = m.
Proof.
  unfold toString. intros H%u16_inj.
  apply DecimalNat.Unsigned.to_uint_inj.
  assert (Some (Nat.to_uint n) = Some (Nat.to_uint m)) as [= ->]; [|done].
  by rewrite <- !NilEmpty.usu, H.
Qed.

Lemma string_of_uint_digits (d : Decimal.uint) :
  Forall isDigit (u16 (NilEmpty.string_of_uint d)).
Proof.
  induction d; simpl; constructor; try done; unfold isDigit; simpl; lia.
Qed.

Lemma toString_digits (n : nat) : Forall isDigit (toString n).
Proof. apply string_of_uint_digits. Qed.

Lemma toString_nonempty (n : nat) : toString n <> [].
Proof.
  unfold toString. intros H.
  change [] with (u16 (NilEmpty.string_of_uint Decimal.Nil)) in H.
  apply u16_inj in H.
  assert (Some (Nat.to_uint n) = Some Decimal.Nil) as [= Hnil]
    by (by rewrite <- !NilEmpty.usu, H).
  apply (f_equal Nat.of_uint) in Hnil.
  rewrite DecimalNat.Unsigned.of_to in Hnil. simpl in Hnil. subst n.
  discriminate.
Qed.

Lemma startsWith_cons (a b : N) (p s : jsstring) :
  startsWith (a :: p) (b :: s) = (a =? b)%N && startsWith p s.
Proof. reflexivity. Qed.

Lemma digit_not_space (c : N) : isDigit c -> isWhiteSpace c = false.
Proof.
  unfold isDigit. intros Hc.
  assert (c = 48 \/ c = 49 \/ c = 50 \/ c = 51 \/ c = 52 \/ c = 53
          \/ c = 54 \/ c = 55 \/ c = 56 \/ c = 57)%N as H by lia.
  repeat destruct H as [-> | H]; try reflexivity. by subst.
Qed.

Lemma trimStart_id (s : jsstring) :
  match s with c :: _ => isWhiteSpace c = false | [] => True end ->
  trimStart s = s.
Proof. destruct s as [|c s]; simpl; [done|]. by intros ->. Qed.

(** A string of digits has nothing to trim. *)
Lemma trim_digits (s : jsstring) : Forall isDigit s -> trim s = s.
Proof.
  intros Hs. unfold trim, trimEnd.
  rewrite (trimStart_id s).
  - rewrite (trimStart_id (rev s)); [apply rev_involutive|].
    apply Forall_rev in Hs. destruct (rev s) as [|c r]; [done|].
    apply Forall_cons in Hs as [Hc _]. by apply digit_not_space.
  - destruct s as [|c r]; [done|].
    apply Forall_cons in Hs as [Hc _]. by apply digit_not_space.
Qed.

(** The separator that follows a string of digits is the leftmost one. *)
Lemma cut_after_digits (d rest : jsstring) :
  Forall isDigit d -> cut SEP (d ++ SEP ++ rest) = Some (d, rest).
Proof.
  induction 1 as [|c d Hc Hd IH]; [done|].
  change ((c :: d) ++ SEP ++ rest) with (c :: (d ++ SEP ++ rest)).
  rewrite cut_cons.
  assert (startsWith SEP (c :: d ++ SEP ++ rest) = false) as ->.
  { unfold SEP. rewrite startsWith_cons. unfold isDigit in Hc.
    destruct (N.eqb_spec 62 c); [lia | reflexivity]. }
  by rewrite IH.
Qed.

Lemma lineEntry_rendered (n : nat) (t : jsstring) :
  lineEntry (toString n ++ SEP ++ t) = Some (toString n, trim t).
Proof.
  rewrite (lineEntry_cut _ (toString n) t).
  - by rewrite trim_digits by apply toString_digits.
  - apply cut_after_digits, toString_digits.
Qed.

Lemma toString_not_proto (n : nat) : toString n <> proto_key.
Proof.
  intros H. pose proof (toString_digits n) as Hd. rewrite H in Hd.
  apply Forall_cons in Hd as [Hc _]. unfold isDigit in Hc. lia.
Qed.

(** ** Lines: [split("\n")] undoes [join("\n")] *)

Lemma cut_NL_none (l : jsstring) : 10%N ∉ l -> cut NL l = None.
Proof.
  induction l as [|c l IH]; intros Hl; [done|].
  rewrite cut_cons. apply not_elem_of_cons in Hl as [Hc Hl].
  assert (startsWith NL (c :: l) = false) as ->.
  { unfold NL. rewrite startsWith_cons.
    destruct (N.eqb_spec 10 c); [by subst | reflexivity]. }
  by rewrite IH.
Qed.

Lemma cut_NL_first (l rest : jsstring) :
  10%N ∉ l -> cut NL (l ++ NL ++ rest) = Some (l, rest).
Proof.
  induction l as [|c l IH]; intros Hl; [done|].
  change ((c :: l) ++ NL ++ rest) with (c :: (l ++ NL ++ rest)).
  rewrite cut_cons. apply not_elem_of_cons in Hl as [Hc Hl].
  assert (startsWith NL (c :: l ++ NL ++ rest) = false) as ->.
  { unfold NL. rewrite startsWith_cons.
    destruct (N.eqb_spec 10 c); [by subst | reflexivity]. }
  by rewrite IH.
Qed.

Lemma split_fuel_S (fuel : nat) (sep s : jsstring) :
  split_fuel (S fuel) sep s
  = match cut sep s with
    | Some (before, after) => before :: split_fuel fuel sep after
    | None => [s]
    end.
Proof. reflexivity. Qed.

Lemma split_fuel_join_NL (lines : list jsstring) (fuel : nat) :
  lines <> [] ->
  Forall (fun l => 10%N ∉ l) lines ->
  length (join NL lines) <= fuel ->
  split_fuel fuel NL (join NL lines) = lines.
Proof.
  revert fuel. induction lines as [|l lines IH]; intros fuel Hne Hall Hfuel;
    [done|].
  apply Forall_cons in Hall as [Hl Hall].
  destruct lines as [|l' lines].
  - change (join NL [l]) with l. destruct fuel; [done|].
    by rewrite split_fuel_S, cut_NL_none.
  - rewrite join_cons in *. destruct fuel as [|fuel].
    + rewrite !length_app in Hfuel. change (length NL) with 1 in Hfuel. lia.
    + rewrite split_fuel_S, cut_NL_first by done. f_equal.
      apply IH; [done | done |].
      rewrite !length_app in Hfuel. change (length NL) with 1 in Hfuel. lia.
Qed.

Lemma split_join_NL (lines : list jsstring) :
  lines <> [] ->
  Forall (fun l => 10%N ∉ l) lines ->
  split NL (join NL lines) = lines.
Proof. intros. unfold split. by apply split_fuel_join_NL. Qed.

(** ** The correction map: overwriting and isolation *)

(** Lines that do not carry the key [idx] leave its entry alone. *)
Lemma recordLines_keep (idx : jsstring) (lines : list jsstring)
    (m : gmap (list N) (list N)) :
  (forall l t, l ∈ lines -> lineEntry l <> Some (idx, t)) ->
  fold_left recordLine lines m !! idx = m !! idx.
Proof.
  revert m. induction lines as [|line lines IH]; intros m Hkeys; [done|].
  simpl. rewrite IH.
  - unfold recordLine.
    destruct (lineEntry line) as [[k t]|] eqn:E; [|done].
    apply setProp_lookup_ne. intros ->.
    apply (Hkeys line t); [by left | done].
  - intros l t Hl. apply Hkeys. by right.
Qed.

Lemma recordLines_last (lines1 lines2 : list jsstring)
    (line idx txt : jsstring) :
  lineEntry line = Some (idx, txt) ->
  idx <> proto_key ->
  (forall l t, l ∈ lines2 -> lineEntry l <> Some (idx, t)) ->
  recordLines (lines1 ++ line :: lines2) !! idx = Some txt.
Proof.
  intros Hline Hproto Hkeys. unfold recordLines.
  rewrite fold_left_app. simpl. rewrite recordLines_keep by done.
  unfold recordLine at 1. rewrite Hline. by apply setProp_lookup_eq.
Qed.

(** When the model emits several lines for one index, the last of them is
    the one the map holds after the response is read. *)
Theorem last_line_wins (resultText : jsstring)
    (lines1 lines2 : list jsstring) (line idx txt : jsstring) :
  split NL resultText = lines1 ++ line :: lines2 ->
  lineEntry line = Some (idx, txt) ->
  idx <> proto_key ->
  (forall l t, l ∈ lines2 -> lineEntry l <> Some (idx, t)) ->
  fixedLinesMap resultText !! idx = Some txt.
Proof.
  intros Hsplit Hline Hproto Hkeys. unfold fixedLinesMap. rewrite Hsplit.
  by apply recordLines_last.
Qed.

Lemma last_line_wins_witness :
  fixedLinesMap (u16 "1>>>a" ++ NL ++ u16 "1>>>b" ++ NL ++ u16 "2>>>c")
    !! u16 "1"
  = Some (u16 "b").
Proof.
  apply (last_line_wins _ [u16 "1>>>a"] [u16 "2>>>c"] (u16 "1>>>b")).
  - vm_compute. reflexivity.
  - vm_compute. reflexivity.
  - discriminate.
  - intros l t Hl. apply list_elem_of_singleton in Hl as ->.
    vm_compute. discriminate.
Defined.

(** A response line for local index [j] can change the entry at position
    [j] only: every other position of the merged batch is what the response
    without that line gives. *)
Theorem correction_is_local (resultText : jsstring)
    (currentBatch : list Entry) (lines1 lines2 : list jsstring)
    (line txt : jsstring) (j idx : nat) :
  split NL resultText = lines1 ++ line :: lines2 ->
  lineEntry line = Some (toString j, txt) ->
  idx + 1 <> j ->
  reconcile resultText currentBatch !! idx
  = safeBatch (recordLines (lines1 ++ lines2)) currentBatch !! idx.
Proof.
  intros Hsplit Hline Hne. unfold reconcile, fixedLinesMap, safeBatch.
  rewrite Hsplit, !list_lookup_imap.
  destruct (currentBatch !! idx) as [item|]; [|done]. simpl. do 3 f_equal.
  unfold recordLines. rewrite !fold_left_app. simpl.
  apply (recordLines_agree (toString j)).
  - intros k' Hk'. unfold recordLine at 1. rewrite Hline.
    by apply setProp_lookup_ne.
  - intros Heq%toString_inj. lia.
Qed.

Lemma correction_is_local_witness :
  reconcile (u16 "1>>>fixed one" ++ NL ++ u16 "2>>>fixed two") Sample.two
    !! 1
  = safeBatch (recordLines ([] ++ [u16 "2>>>fixed two"])) Sample.two !! 1.
Proof.
  apply (correction_is_local _ Sample.two [] [u16 "2>>>fixed two"]
           (u16 "1>>>fixed one") (u16 "fixed one") 1 1).
  - vm_compute. reflexivity.
  - vm_compute. reflexivity.
  - lia.
Defined.

(** ** Rendering a batch and reading it back *)

Lemma includes_intro (sep p q : jsstring) : includes sep (p ++ sep ++ q) = true.
Proof.
  induction p as [|c p IH].
  - simpl app. destruct (sep ++ q) as [|c s] eqn:E.
    + destruct sep; [reflexivity | discriminate].
    + rewrite includes_cons, <- E, startsWith_app. reflexivity.
  - change ((c :: p) ++ sep ++ q) with (c :: (p ++ sep ++ q)).
    rewrite includes_cons, IH. apply orb_true_r.
Qed.

(** Every piece [split] returns is a part of the string split. *)
Lemma split_fuel_part (fuel : nat) (sep s line : jsstring) :
  line ∈ split_fuel fuel sep s -> exists p q, s = p ++ line ++ q.
Proof.
  revert s. induction fuel as [|fuel IH]; intros s Hin.
  - apply list_elem_of_singleton in Hin as ->. exists [], [].
    by rewrite app_nil_r.
  - rewrite split_fuel_S in Hin.
    destruct (cut sep s) as [[b a]|] eqn:Hc.
    + apply cut_Some in Hc as ->.
      apply elem_of_cons in Hin as [-> | Hin].
      * by exists [], (sep ++ a).
      * destruct (IH a Hin) as (p & q & ->).
        exists (b ++ sep ++ p), q. by rewrite <- !app_assoc.
    + apply list_elem_of_singleton in Hin as ->. exists [], [].
      by rewrite app_nil_r.
Qed.

Lemma recordLines_none (lines : list jsstring) :
  (forall l, l ∈ lines -> includes SEP l = false) -> recordLines lines = ∅.
Proof.
  unfold recordLines. generalize (∅ : gmap (list N) (list N)).
  induction lines as [|l lines IH]; intros m H; [done|].
  simpl. unfold recordLine at 2, lineEntry. rewrite (H l) by by left.
  apply IH. intros l' Hl'. apply H. by right.
Qed.

Lemma safeBatch_empty (currentBatch : list Entry) :
  safeBatch ∅ currentBatch = currentBatch.
Proof.
  apply list_eq. intros idx. unfold safeBatch. rewrite list_lookup_imap.
  destruct (currentBatch !! idx) as [item|]; [|done]. simpl.
  by rewrite lookup_empty, withText_same.
Qed.

(** A response text in which the separator does not occur at all (a
    refusal, an explanation, an empty string) leaves the batch exactly as
    it was. *)
Theorem no_separator_no_change (resultText : jsstring)
    (currentBatch : list Entry) :
  includes SEP resultText = false ->
  reconcile resultText currentBatch = currentBatch.
Proof.
  intros Hnone. unfold reconcile, fixedLinesMap.
  rewrite recordLines_none; [apply safeBatch_empty|].
  intros l Hl. destruct (includes SEP l) eqn:E; [|done].
  apply split_fuel_part in Hl as (p & q & ->).
  apply includes_cut in E as [[b a] Hc]. apply cut_Some in Hc as ->.
  rewrite <- Hnone. symmetry.
  replace (p ++ (b ++ SEP ++ a) ++ q) with ((p ++ b) ++ SEP ++ (a ++ q))
    by (by rewrite <- !app_assoc).
  apply includes_intro.
Qed.

Lemma no_separator_no_change_witness :
  reconcile (u16 "Sorry, I cannot help with that.") Sample.two = Sample.two.
Proof.
  apply (no_separator_no_change (u16 "Sorry, I cannot help with that.")
           Sample.two).
  vm_compute. reflexivity.
Defined.

(** The line [textBlock] renders for the entry at position [idx]. *)
Lemma rendered_lines_lookup (currentBatch : list Entry) (idx : nat)
    (item : Entry) :
  currentBatch !! idx = Some item ->
  recordLines
    (imap (fun idx item => toString (idx + 1) ++ SEP ++ text item)
       currentBatch)
    !! toString (idx + 1)
  = Some (trim (text item)).
Proof.
  intros Hitem.
  rewrite <- (take_drop_middle currentBatch idx item Hitem) at 1.
  rewrite imap_app, imap_cons.
  assert (length (take idx currentBatch) = idx) as Hlen.
  { apply length_take_le. apply lookup_lt_Some in Hitem. lia. }
  apply recordLines_last.
  - rewrite Hlen, Nat.add_0_r. apply lineEntry_rendered.
  - apply toString_not_proto.
  - intros l t Hl Hkey.
    apply elem_of_lookup_imap in Hl as (i & y & -> & _).
    unfold compose in Hkey. cbv beta in Hkey.
    rewrite lineEntry_rendered in Hkey.
    injection Hkey as Hkey%toString_inj _. lia.
Qed.

Lemma digits_no_newline (s : jsstring) : Forall isDigit s -> 10%N ∉ s.
Proof.
  intros Hs Hin. rewrite Forall_forall in Hs. specialize (Hs _ Hin).
  unfold isDigit in Hs. lia.
Qed.

(** If the model echoes the block of the prompt unchanged, the merge gives
    the batch back, provided no entry's text holds a line break or has
    white space at its ends. *)
Theorem echo_round_trip (currentBatch : list Entry) :
  Forall (fun item => (10%N ∉ text item) /\ trim (text item) = text item)
    currentBatch ->
  reconcile (textBlock currentBatch) currentBatch = currentBatch.
Proof.
  intros Hclean. destruct currentBatch as [|item0 rest] eqn:Hbatch;
    [reflexivity|]. rewrite <- Hbatch in *.
  unfold reconcile, fixedLinesMap, textBlock.
  rewrite split_join_NL.
  - apply list_eq. intros idx. unfold safeBatch. rewrite list_lookup_imap.
    destruct (currentBatch !! idx) as [item|] eqn:Hitem; [|done].
    change (Some (withText item
                    (js_or (recordLines
                              (imap (fun idx item =>
                                       toString (idx + 1) ++ SEP ++ text item)
                                 currentBatch) !! toString (idx + 1))
                       (text item)))
            = Some item).
    rewrite (rendered_lines_lookup _ _ _ Hitem).
    rewrite Forall_forall in Hclean.
    destruct (Hclean item) as [_ ->]; [by eapply list_elem_of_lookup_2|].
    f_equal. destruct item as [? ? ? ? ? [|c t]]; reflexivity.
  - rewrite Hbatch. by rewrite imap_cons.
  - apply Forall_forall. intros l Hl.
    apply elem_of_lookup_imap in Hl as (i & y & -> & Hy).
    rewrite Forall_forall in Hclean.
    destruct (Hclean y) as [Hnl _]; [by eapply list_elem_of_lookup_2|].
    rewrite !elem_of_app. intros [Hd | [Hs | Ht]]; [| |done].
    + by apply (digits_no_newline _ (toString_digits (i + 1))).
    + revert Hs. apply (bool_decide_unpack _). vm_compute. exact I.
Qed.

Lemma echo_round_trip_witness :
  reconcile (textBlock Sample.two) Sample.two = Sample.two.
Proof.
  apply (echo_round_trip Sample.two).
  repeat constructor; try (vm_compute; reflexivity);
    apply (bool_decide_unpack _); vm_compute; exact I.
Defined.

(** ** The resilient invoker, all three variants *)

Ltac run_round :=
  unfold App.round, App.tryBlock, Variant.round, Variant.tryBlock,
    Spaced.round, Spaced.tryBlock, App.generated, Variant.generated, fetch,
    generatedText, Spaced.addLog in *;
  run_monad.

Section RoundFacts.
Variable network : nat -> FetchOutcome.
Variable fullPrompt : Prompt.
Variable retries : Z.

Lemma Spaced_round_spec (i : Z) (w : World) :
  requests (Spaced.round network fullPrompt retries i w).2
  = requests w ++ [fullPrompt]
  /\ forall v,
       (Spaced.round network fullPrompt retries i w).1 = Normal (Return v) ->
       generatedText (network (length (requests w))) = Some v.
Proof.
  run_round.
  destruct (network (length (requests w))) as [|r].
  - simpl. by destruct (i =? retries - 1)%Z.
  - round_cases r; simplify_eq/=; (split; [done|]); intros v Hv;
      by simplify_eq.
Qed.

(** A round whose request meets an outcome that carries a value returns
    that value ... *)
Lemma round_returns (i : Z) (w : World) (v : option jsstring) :
  generatedText (network (length (requests w))) = Some v ->
  (App.round network fullPrompt retries i w).1 = Normal (Return v)
  /\ (Variant.round network fullPrompt retries i w).1 = Normal (Return v)
  /\ (Spaced.round network fullPrompt retries i w).1 = Normal (Return v).
Proof.
  run_round.
  destruct (network (length (requests w))) as [|r]; [done|].
  intros Hgen. round_cases r; by simplify_eq/=.
Qed.

(** ... and a round that is not the last and meets any other outcome goes
    on to the next round. *)
Lemma round_continues (i : Z) (w : World) :
  generatedText (network (length (requests w))) = None ->
  i <> (retries - 1)%Z ->
  (App.round network fullPrompt retries i w).1 = Normal Continue
  /\ (Variant.round network fullPrompt retries i w).1 = Normal Continue
  /\ (Spaced.round network fullPrompt retries i w).1 = Normal Continue.
Proof.
  intros Hgen Hlast. apply Z.eqb_neq in Hlast. revert Hgen. run_round.
  rewrite Hlast.
  destruct (network (length (requests w))) as [|r]; [done|].
  intros Hgen. round_cases r; by simplify_eq/=.
Qed.
End RoundFacts.

Section FirstGenerated.
Variable network : nat -> FetchOutcome.
Variable fullPrompt : Prompt.
Variable retries : Z.

Lemma App_first_generated :
  forall (k remaining : nat) (i : Z) (w : World) (v : option jsstring),
    k < remaining ->
    (i + Z.of_nat remaining = retries)%Z ->
    (forall j, j < k ->
               generatedText (network (length (requests w) + j)) = None) ->
    generatedText (network (length (requests w) + k)) = Some v ->
    (App.attempts network fullPrompt retries remaining i w).1 = Normal v
    /\ requests (App.attempts network fullPrompt retries remaining i w).2
       = requests w ++ replicate (S k) fullPrompt.
Proof.
  intros k. induction k as [|k IH]; intros remaining i w v Hk Hi Hnone Hsome;
    (destruct remaining as [|remaining]; [lia|]); simpl;
    unfold mbind, M_bind;
    destruct (App_round_spec network fullPrompt retries i w) as [Hreq _].
  - rewrite Nat.add_0_r in Hsome.
    destruct (round_returns network fullPrompt retries i w v Hsome)
      as (HA & HV & HS).
    destruct (App.round network fullPrompt retries i w) as [c w1].
    simpl in *. subst c. simpl. by rewrite Hreq.
  - assert (generatedText (network (length (requests w))) = None) as H0.
    { rewrite <- (Nat.add_0_r (length (requests w))). apply Hnone. lia. }
    assert (i <> (retries - 1)%Z) as Hlast by lia.
    destruct (round_continues network fullPrompt retries i w H0 Hlast)
      as (HA & HV & HS).
    destruct (App.round network fullPrompt retries i w) as [c w1].
    simpl in *. subst c.
    destruct (IH remaining (i + 1)%Z w1 v) as [Hval Hreqs];
      [lia | lia | | |].
    + intros j Hj. rewrite Hreq, length_app. simpl.
      replace (length (requests w) + 1 + j)
        with (length (requests w) + S j) by lia.
      apply Hnone. lia.
    + rewrite Hreq, length_app. simpl.
      by replace (length (requests w) + 1 + k)
        with (length (requests w) + S k) by lia.
    + split; [done|]. rewrite Hreqs, Hreq, <- app_assoc. done.
Qed.

Lemma Variant_first_generated :
  forall (k remaining : nat) (i : Z) (w : World) (v : option jsstring),
    k < remaining ->
    (i + Z.of_nat remaining = retries)%Z ->
    (forall j, j < k ->
               generatedText (network (length (requests w) + j)) = None) ->
    generatedText (network (length (requests w) + k)) = Some v ->
    (Variant.attempts network fullPrompt retries remaining i w).1 = Normal v
    /\ requests (Variant.attempts network fullPrompt retries remaining i w).2
       = requests w ++ replicate (S k) fullPrompt.
Proof.
  intros k. induction k as [|k IH]; intros remaining i w v Hk Hi Hnone Hsome;
    (destruct remaining as [|remaining]; [lia|]); simpl;
    unfold mbind, M_bind;
    destruct (Variant_round_spec network fullPrompt retries i w) as [Hreq _].
  - rewrite Nat.add_0_r in Hsome.
    destruct (round_returns network fullPrompt retries i w v Hsome)
      as (HA & HV & HS).
    destruct (Variant.round network fullPrompt retries i w) as [c w1].
    simpl in *. subst c. simpl. by rewrite Hreq.
  - assert (generatedText (network (length (requests w))) = None) as H0.
    { rewrite <- (Nat.add_0_r (length (requests w))). apply Hnone. lia. }
    assert (i <> (retries - 1)%Z) as Hlast by lia.
    destruct (round_continues network fullPrompt retries i w H0 Hlast)
      as (HA & HV & HS).
    destruct (Variant.round network fullPrompt retries i w) as [c w1].
    simpl in *. subst c.
    destruct (IH remaining (i + 1)%Z w1 v) as [Hval Hreqs];
      [lia | lia | | |].
    + intros j Hj. rewrite Hreq, length_app. simpl.
      replace (length (requests w) + 1 + j)
        with (length (requests w) + S j) by lia.
      apply Hnone. lia.
    + rewrite Hreq, length_app. simpl.
      by replace (length (requests w) + 1 + k)
        with (length (requests w) + S k) by lia.
    + split; [done|]. rewrite Hreqs, Hreq, <- app_assoc. done.
Qed.

Lemma Spaced_first_generated :
  forall (k remaining : nat) (i : Z) (w : World) (v : option jsstring),
    k < remaining ->
    (i + Z.of_nat remaining = retries)%Z ->
    (forall j, j < k ->
               generatedText (network (length (requests w) + j)) = None) ->
    generatedText (network (length (requests w) + k)) = Some v ->
    (Spaced.attempts network fullPrompt retries remaining i w).1 = Normal v
    /\ requests (Spaced.attempts network fullPrompt retries remaining i w).2
       = requests w ++ replicate (S k) fullPrompt.
Proof.
  intros k. induction k as [|k IH]; intros remaining i w v Hk Hi Hnone Hsome;
    (destruct remaining as [|remaining]; [lia|]); simpl;
    unfold mbind, M_bind;
    destruct (Spaced_round_spec network fullPrompt retries i w) as [Hreq _].
  - rewrite Nat.add_0_r in Hsome.
    destruct (round_returns network fullPrompt retries i w v Hsome)
      as (HA & HV & HS).
    destruct (Spaced.round network fullPrompt retries i w) as [c w1].
    simpl in *. subst c. simpl. by rewrite Hreq.
  - assert (generatedText (network (length (requests w))) = None) as H0.
    { rewrite <- (Nat.add_0_r (length (requests w))). apply Hnone. lia. }
    assert (i <> (retries - 1)%Z) as Hlast by lia.
    destruct (round_continues network fullPrompt retries i w H0 Hlast)
      as (HA & HV & HS).
    destruct (Spaced.round network fullPrompt retries i w) as [c w1].
    simpl in *. subst c.
    destruct (IH remaining (i + 1)%Z w1 v) as [Hval Hreqs];
      [lia | lia | | |].
    + intros j Hj. rewrite Hreq, length_app. simpl.
      replace (length (requests w) + 1 + j)
        with (length (requests w) + S j) by lia.
      apply Hnone. lia.
    + rewrite Hreq, length_app. simpl.
      by replace (length (requests w) + 1 + k)
        with (length (requests w) + S k) by lia.
    + split; [done|]. rewrite Hreqs, Hreq, <- app_assoc. done.
Qed.

(** The invoker returns the text of the first outcome that carries one:
    the outcomes before it are retried (they cannot be the last attempt),
    and exactly [k + 1] requests go out.  All three variants. *)
Theorem first_generated_wins (k : nat) (w : World) (v : option jsstring) :
  k < Z.to_nat retries ->
  (forall j, j < k ->
             generatedText (network (length (requests w) + j)) = None) ->
  generatedText (network (length (requests w) + k)) = Some v ->
  ((App.callGeminiWithRetry network fullPrompt retries w).1 = Normal v
   /\ requests (App.callGeminiWithRetry network fullPrompt retries w).2
      = requests w ++ replicate (S k) fullPrompt)
  /\ ((Variant.callGeminiWithRetry network fullPrompt retries w).1
      = Normal v
      /\ requests (Variant.callGeminiWithRetry network fullPrompt retries
                     w).2
         = requests w ++ replicate (S k) fullPrompt)
  /\ ((Spaced.callGeminiWithRetry network fullPrompt retries w).1
      = Normal v
      /\ requests (Spaced.callGeminiWithRetry network fullPrompt retries
                     w).2
         = requests w ++ replicate (S k) fullPrompt).
Proof.
  intros Hk Hnone Hsome.
  unfold App.callGeminiWithRetry, Variant.callGeminiWithRetry,
    Spaced.callGeminiWithRetry.
  split; [|split].
  - apply (App_first_generated k); [done | lia | done | done].
  - apply (Variant_first_generated k); [done | lia | done | done].
  - apply (Spaced_first_generated k); [done | lia | done | done].
Qed.
End FirstGenerated.

Lemma first_generated_wins_witness :
  ((App.callGeminiWithRetry Sample.network Sample.prompt 3 initial).1
   = Normal (Some (u16 "1>>>hello"))
   /\ requests (App.callGeminiWithRetry Sample.network Sample.prompt 3
                  initial).2
      = requests initial ++ replicate 2 Sample.prompt)
  /\ ((Variant.callGeminiWithRetry Sample.network Sample.prompt 3 initial).1
      = Normal (Some (u16 "1>>>hello"))
      /\ requests (Variant.callGeminiWithRetry Sample.network Sample.prompt 3
                     initial).2
         = requests initial ++ replicate 2 Sample.prompt)
  /\ ((Spaced.callGeminiWithRetry Sample.network Sample.prompt 3 initial).1
      = Normal (Some (u16 "1>>>hello"))
      /\ requests (Spaced.callGeminiWithRetry Sample.network Sample.prompt 3
                     initial).2
         = requests initial ++ replicate 2 Sample.prompt).
Proof.
  apply (first_generated_wins Sample.network Sample.prompt 3 1 initial
           (Some (u16 "1>>>hello"))).
  - simpl. lia.
  - intros j Hj. assert (j = 0) as -> by lia. reflexivity.
  - reflexivity.
Defined.

Section InvokerBounds.
Variable network : nat -> FetchOutcome.
Variable fullPrompt : Prompt.
Variable retries : Z.

Lemma Spaced_attempts_bound (remaining : nat) (i : Z) (w : World) :
  exists n, n <= remaining
            /\ requests (Spaced.attempts network fullPrompt retries
                           remaining i w).2
               = requests w ++ replicate n fullPrompt.
Proof.
  revert i w. induction remaining as [|remaining IH]; intros i w.
  - simpl. exists 0. split; [lia|]. simpl. by rewrite app_nil_r.
  - simpl. unfold mbind, M_bind.
    destruct (Spaced_round_spec network fullPrompt retries i w) as [Hreq _].
    destruct (Spaced.round network fullPrompt retries i w)
      as [[[|v']|e] w1]; simpl in *.
    + destruct (IH (i + 1)%Z w1) as (n & Hn & Hreqs).
      exists (S n). split; [lia|]. rewrite Hreqs, Hreq. simpl.
      by rewrite <- app_assoc.
    + exists 1. split; [lia|]. by rewrite Hreq.
    + exists 1. split; [lia|]. by rewrite Hreq.
Qed.

(** Whatever the network answers, a call of the invoker sends the same
    prompt again and again and never more than [retries] times (never at
    all when [retries] is zero or negative).  All three variants. *)
Theorem invoker_retry_bound (w : World) :
  (exists n, n <= Z.to_nat retries
             /\ requests (App.callGeminiWithRetry network fullPrompt retries
                            w).2
                = requests w ++ replicate n fullPrompt)
  /\ (exists n, n <= Z.to_nat retries
                /\ requests (Variant.callGeminiWithRetry network fullPrompt
                               retries w).2
                   = requests w ++ replicate n fullPrompt)
  /\ (exists n, n <= Z.to_nat retries
                /\ requests (Spaced.callGeminiWithRetry network fullPrompt
                               retries w).2
                   = requests w ++ replicate n fullPrompt).
Proof.
  unfold App.callGeminiWithRetry, Variant.callGeminiWithRetry,
    Spaced.callGeminiWithRetry.
  split; [|split].
  - by destruct (App_attempts_spec network fullPrompt retries
                   (Z.to_nat retries) 0%Z w) as [H _].
  - apply Variant_attempts_bound.
  - apply Spaced_attempts_bound.
Qed.

(** [src/src/App.js]: a 429 in round [i] is followed by a wait of
    [20000 + i * 10000] ms; the round then goes on, or throws when it is
    the last. *)
Lemma App_rate_limit_round (i : Z) (w : World) (r : Response) :
  network (length (requests w)) = Responded r ->
  status r = 429%Z ->
  (App.round network fullPrompt retries i w).1
  = (if (i =? retries - 1)%Z then Throw RateLimitExhausted
     else Normal Continue)
  /\ slept (App.round network fullPrompt retries i w).2
     = slept w ++ [(20000 + i * 10000)%Z]
  /\ requests (App.round network fullPrompt retries i w).2
     = requests w ++ [fullPrompt].
Proof.
  intros Hnet Hstatus. run_round. rewrite Hnet, Hstatus. simpl.
  by destruct (i =? retries - 1)%Z.
Qed.

Lemma App_all_rate_limited (remaining : nat) (i : Z) (w : World) :
  0 < remaining ->
  (i + Z.of_nat remaining = retries)%Z ->
  (forall j, j < remaining ->
             exists r, network (length (requests w) + j) = Responded r
                       /\ status r = 429%Z) ->
  (App.attempts network fullPrompt retries remaining i w).1
  = Throw RateLimitExhausted
  /\ slept (App.attempts network fullPrompt retries remaining i w).2
     = slept w
       ++ ((fun j => (20000 + (i + Z.of_nat j) * 10000)%Z)
             <$> seq 0 remaining)
  /\ requests (App.attempts network fullPrompt retries remaining i w).2
     = requests w ++ replicate remaining fullPrompt.
Proof.
  revert i w. induction remaining as [|remaining IH]; intros i w Hpos Hi Hall;
    [lia|].
  destruct (Hall 0) as (r & Hnet & Hstatus); [lia|].
  rewrite Nat.add_0_r in Hnet.
  destruct (App_rate_limit_round i w r Hnet Hstatus) as (Hc & Hs & Hr).
  simpl. unfold mbind, M_bind.
  destruct (App.round network fullPrompt retries i w) as [c w1].
  simpl in *. subst c.
  destruct (Z.eqb_spec i (retries - 1)) as [Hlast | Hlast].
  - assert (remaining = 0) as -> by lia. simpl.
    rewrite Hs, Hr. repeat split. do 3 f_equal. lia.
  - destruct (IH (i + 1)%Z w1) as (Hval & Hsl & Hrq); [lia | lia | |].
    + intros j Hj. destruct (Hall (S j)) as (r' & Hnet' & Hst'); [lia|].
      exists r'. split; [|done]. rewrite Hr, length_app. simpl.
      by replace (length (requests w) + 1 + j)
        with (length (requests w) + S j) by lia.
    + split; [done|]. split.
      * rewrite Hsl, Hs, <- app_assoc. f_equal. simpl. f_equal.
        { f_equal. lia. }
        rewrite <- fmap_S_seq, <- list_fmap_compose.
        apply list_fmap_ext. intros _ j _. simpl. lia.
      * rewrite Hrq, Hr, <- app_assoc. done.
Qed.

(** [src/src/App.js]: when every attempt of a call is answered 429, the
    call makes all its [retries] attempts, waits 20 s, 30 s, 40 s, ... after
    them (the last included) and then throws the rate-limit error. *)
Theorem App_rate_limit_exhausted (w : World) :
  (0 < retries)%Z ->
  (forall j, j < Z.to_nat retries ->
             exists r, network (length (requests w) + j) = Responded r
                       /\ status r = 429%Z) ->
  (App.callGeminiWithRetry network fullPrompt retries w).1
  = Throw RateLimitExhausted
  /\ slept (App.callGeminiWithRetry network fullPrompt retries w).2
     = slept w
       ++ ((fun j => (20000 + Z.of_nat j * 10000)%Z)
             <$> seq 0 (Z.to_nat retries))
  /\ requests (App.callGeminiWithRetry network fullPrompt retries w).2
     = requests w ++ replicate (Z.to_nat retries) fullPrompt.
Proof.
  intros Hpos Hall. unfold App.callGeminiWithRetry.
  destruct (App_all_rate_limited (Z.to_nat retries) 0%Z w)
    as (Hval & Hsl & Hrq); [lia | lia | done |].
  by rewrite Hsl.
Qed.
End InvokerBounds.

Lemma App_rate_limit_exhausted_witness :
  (App.callGeminiWithRetry Sample.alwaysRateLimited Sample.prompt 5
     initial).1
  = Throw RateLimitExhausted
  /\ slept (App.callGeminiWithRetry Sample.alwaysRateLimited Sample.prompt 5
              initial).2
     = slept initial
       ++ ((fun j => (20000 + Z.of_nat j * 10000)%Z)
             <$> seq 0 (Z.to_nat 5))
  /\ requests (App.callGeminiWithRetry Sample.alwaysRateLimited
                 Sample.prompt 5 initial).2
     = requests initial ++ replicate (Z.to_nat 5) Sample.prompt.
Proof.
  apply (App_rate_limit_exhausted Sample.alwaysRateLimited Sample.prompt 5
           initial).
  - lia.
  - intros j _. by eexists.
Defined.

Lemma App_exhausted_throws_witness :
  exists error,
    (App.callGeminiWithRetry Sample.alwaysRateLimited Sample.prompt 5
       initial).1
    = Throw error.
Proof.
  apply (App_exhausted_throws Sample.alwaysRateLimited Sample.prompt 5
           initial).
  intros k _. reflexivity.
Defined.

Lemma App_backoff_increasing_witness :
  exists dj dk,
    slept (App.round Sample.alwaysRateLimited Sample.prompt 5 0 initial).2
    = slept initial ++ [dj]
    /\ slept (App.round Sample.alwaysRateLimited Sample.prompt 5 1
                initial).2
       = slept initial ++ [dk]
    /\ (dj < dk)%Z.
Proof.
  apply (App_backoff_increasing Sample.alwaysRateLimited Sample.prompt 5
           0 1 initial initial
           {| status := 429; body := NoJson |}
           {| status := 429; body := NoJson |}).
  - lia.
  - reflexivity.
  - reflexivity.
  - reflexivity.
  - reflexivity.
Defined.

(** ** What a run leaves behind *)

Lemma calm_refl (w : World) : calm w w.
Proof. by repeat split. Qed.

Lemma calm_trans (w1 w2 w3 : World) : calm w1 w2 -> calm w2 w3 -> calm w1 w3.
Proof. unfold calm. intros (? & ? & ?) (? & ? & ?). repeat split; congruence. Qed.

Lemma quiet_refl (w : World) : quiet w w.
Proof. split; [done | apply calm_refl]. Qed.

Lemma quiet_trans (w1 w2 w3 : World) :
  quiet w1 w2 -> quiet w2 w3 -> quiet w1 w3.
Proof.
  intros [? ?] [? ?]. split; [congruence | by eapply calm_trans].
Qed.

Section InvokerQuiet.
Variable network : nat -> FetchOutcome.
Variable fullPrompt : Prompt.
Variable retries : Z.

Lemma App_round_quiet (i : Z) (w : World) :
  quiet w (App.round network fullPrompt retries i w).2.
Proof.
  run_round.
  destruct (network (length (requests w))) as [|r].
  - simpl. by destruct (i =? retries - 1)%Z.
  - round_cases r; by simplify_eq/=.
Qed.

Lemma Variant_round_quiet (i : Z) (w : World) :
  quiet w (Variant.round network fullPrompt retries i w).2.
Proof.
  run_round.
  destruct (network (length (requests w))) as [|r].
  - simpl. by destruct (i =? retries - 1)%Z.
  - round_cases r; by simplify_eq/=.
Qed.

(** The invoker sends requests, sleeps and logs; it never touches the
    progress, the run flag, the final text or the alerts. *)
Lemma App_invoker_quiet (w : World) :
  quiet w (App.callGeminiWithRetry network fullPrompt retries w).2.
Proof.
  unfold App.callGeminiWithRetry. generalize 0%Z. revert w.
  induction (Z.to_nat retries) as [|remaining IH]; intros w i;
    [apply quiet_refl|].
  simpl. unfold mbind, M_bind. pose proof (App_round_quiet i w) as Hq.
  destruct (App.round network fullPrompt retries i w) as [[[|v]|e] w1];
    simpl in *; try done.
  eapply quiet_trans; [done | apply IH].
Qed.

Lemma Variant_invoker_quiet (w : World) :
  quiet w (Variant.callGeminiWithRetry network fullPrompt retries w).2.
Proof.
  unfold Variant.callGeminiWithRetry. generalize 0%Z. revert w.
  induction (Z.to_nat retries) as [|remaining IH]; intros w i;
    [apply quiet_refl|].
  simpl. unfold mbind, M_bind. pose proof (Variant_round_quiet i w) as Hq.
  destruct (Variant.round network fullPrompt retries i w) as [[[|v]|e] w1];
    simpl in *; try done.
  eapply quiet_trans; [done | apply IH].
Qed.
End InvokerQuiet.

Section RunFacts.
Variable BATCH_SIZE : nat.
Variable excerptLength : nat.
Variable cooldown : Z.
Variable addLog : LogEvent -> M unit.
Variable startLogs : M unit.
Variable callGeminiWithRetry : Prompt -> M (option jsstring).
Variable checkResult : option jsstring -> M jsstring.
Variable fromSrt : jsstring -> list Entry.
Variable toSrt : list Entry -> jsstring.
Hypothesis BATCH_SIZE_pos : 0 < BATCH_SIZE.
Hypothesis addLog_logs :
  forall msg, exists f, forall w, addLog msg w = setLogs f w.
Hypothesis startLogs_logs : exists f, forall w, startLogs w = setLogs f w.
Hypothesis invoker_quiet : forall p w, quiet w (callGeminiWithRetry p w).2.
Hypothesis checkResult_pure : forall r w, (checkResult r w).2 = w.

Let round :=
  batchRound BATCH_SIZE excerptLength cooldown addLog callGeminiWithRetry
    checkResult.
Let loop :=
  batchLoop BATCH_SIZE excerptLength cooldown addLog callGeminiWithRetry
    checkResult.
Let run :=
  pipeline BATCH_SIZE excerptLength cooldown addLog callGeminiWithRetry
    checkResult fromSrt toSrt.

(** A round of the batch loop leaves the run flag, the final text and the
    alerts alone, and when it completes the progress is that of its
    batch. *)
Lemma batchRound_effect (scriptText : jsstring) (srtArray : list Entry)
    (totalBatches i : nat) (processedArray : list Entry) (w : World) :
  calm w (round scriptText srtArray totalBatches i processedArray w).2
  /\ forall out,
       (round scriptText srtArray totalBatches i processedArray w).1
       = Normal out ->
       progress (round scriptText srtArray totalBatches i processedArray w).2
       = Some (i / BATCH_SIZE + 1, totalBatches).
Proof.
  unfold round, batchRound, mbind, M_bind.
  destruct (addLog_logs
              (LogBatch (i / BATCH_SIZE + 1) totalBatches
                 (length (slice i (i + BATCH_SIZE) srtArray)))) as [f Hf].
  rewrite !Hf. unfold setLogs.
  match goal with
  | |- context [callGeminiWithRetry ?p ?w1] =>
      pose proof (invoker_quiet p w1) as Hq;
      destruct (callGeminiWithRetry p w1) as [[r|e] w2]
  end; simpl in Hq.
  2: { simpl. split; [|done]. by destruct Hq as [_ Hq]. }
  pose proof (checkResult_pure r w2) as Hc.
  destruct (checkResult r w2) as [[t|e] w3]; simpl in Hc; subst w3.
  2: { simpl. split; [|done]. by destruct Hq as [_ Hq]. }
  unfold setProgress, sleep, mret, M_ret.
  destruct Hq as [_ (Hq1 & Hq2 & Hq3)].
  destruct (i / BATCH_SIZE + 1 <? totalBatches); simpl; by repeat split.
Qed.

Lemma batchLoop_done (scriptText : jsstring) (srtArray : list Entry)
    (totalBatches fuel i : nat) (processedArray : list Entry) (w : World) :
  length srtArray <= i ->
  loop fuel scriptText srtArray totalBatches i processedArray w
  = (Normal processedArray, w).
Proof.
  intros Hi. unfold loop.
  destruct fuel; simpl; by destruct (Nat.ltb_spec i (length srtArray));
    [lia|].
Qed.

Lemma batchLoop_calm (scriptText : jsstring) (srtArray : list Entry)
    (totalBatches fuel i : nat) (processedArray : list Entry) (w : World) :
  calm w (loop fuel scriptText srtArray totalBatches i processedArray w).2.
Proof.
  unfold loop. revert i processedArray w.
  induction fuel as [|fuel IH]; intros i acc w; simpl;
    destruct (i <? length srtArray); try apply calm_refl.
  unfold mbind, M_bind.
  destruct (batchRound_effect scriptText srtArray totalBatches i acc w)
    as [Hc _].
  unfold round in Hc.
  destruct (batchRound _ _ _ _ _ _ _ _ _ _ _ _) as [[acc'|e] w1];
    simpl in *; [|done].
  eapply calm_trans; [done | apply IH].
Qed.

(** When the loop completes, the progress stands at the last batch of
    [totalBatchesOf srtArray]. *)
Lemma batchLoop_progress (scriptText : jsstring) (srtArray : list Entry)
    (totalBatches fuel q : nat) (processedArray out : list Entry)
    (w : World) :
  q * BATCH_SIZE < length srtArray ->
  length srtArray <= q * BATCH_SIZE + fuel * BATCH_SIZE ->
  (loop fuel scriptText srtArray totalBatches (q * BATCH_SIZE)
     processedArray w).1 = Normal out ->
  progress (loop fuel scriptText srtArray totalBatches (q * BATCH_SIZE)
              processedArray w).2
  = Some (totalBatchesOf BATCH_SIZE srtArray, totalBatches).
Proof.
  unfold loop. revert q processedArray w.
  induction fuel as [|fuel IH]; intros q acc w Hq Hfuel; [lia|].
  simpl. destruct (Nat.ltb_spec (q * BATCH_SIZE) (length srtArray)); [|lia].
  unfold mbind, M_bind.
  destruct (batchRound_effect scriptText srtArray totalBatches
              (q * BATCH_SIZE) acc w) as [_ Hp].
  unfold round in Hp.
  destruct (batchRound _ _ _ _ _ _ _ _ _ _ _ _) as [[acc'|e] w1];
    simpl in *; [|done].
  specialize (Hp acc' eq_refl).
  destruct (Nat.ltb_spec (q * BATCH_SIZE + BATCH_SIZE) (length srtArray))
    as [Hmore | Hlast].
  - replace (q * BATCH_SIZE + BATCH_SIZE) with (S q * BATCH_SIZE) by lia.
    apply IH; lia.
  - pose proof (batchLoop_done scriptText srtArray totalBatches fuel
                  (q * BATCH_SIZE + BATCH_SIZE) acc' w1 Hlast) as Hdone.
    unfold loop in Hdone. rewrite Hdone. simpl. intros _. rewrite Hp.
    f_equal. f_equal. rewrite Nat.div_mul by lia. unfold totalBatchesOf.
    pose proof (Nat.div_mod_eq (length srtArray) BATCH_SIZE) as Hdm.
    pose proof (Nat.mod_upper_bound (length srtArray) BATCH_SIZE) as Hr.
    destruct (Nat.eqb_spec (length srtArray mod BATCH_SIZE) 0); nia.
Qed.

(** The body of [try]: when it completes, the final text is the encoding
    of an output as long as the input, no alert has been raised, the run
    flag is down and the progress is complete; when it throws, final text
    and alerts are untouched. *)
Lemma pipeline_effect (scriptText : jsstring) (srtFile : File) (w : World) :
  match (run scriptText srtFile w).1 with
  | Normal out =>
      exists fileText,
        file_text srtFile = Some fileText
        /\ fromSrt fileText <> []
        /\ length out = length (fromSrt fileText)
        /\ finalSrt (run scriptText srtFile w).2 = Some (toSrt out)
        /\ alerts (run scriptText srtFile w).2 = alerts w
        /\ isProcessing (run scriptText srtFile w).2 = false
        /\ progress (run scriptText srtFile w).2
           = Some (totalBatchesOf BATCH_SIZE (fromSrt fileText),
                   totalBatchesOf BATCH_SIZE (fromSrt fileText))
  | Throw e =>
      finalSrt (run scriptText srtFile w).2 = finalSrt w
      /\ alerts (run scriptText srtFile w).2 = alerts w
  end.
Proof.
  destruct (addLog_logs LogDone) as [g Hg].
  destruct (run scriptText srtFile w) as [[out|e] w'] eqn:Hrun; simpl.
  - destruct (file_text srtFile) as [fileText|] eqn:Hfile.
    2: { unfold run, pipeline, readFileAsText in Hrun.
         by rewrite Hfile in Hrun. }
    exists fileText. split; [done|].
    pose proof (pipeline_frame BATCH_SIZE excerptLength cooldown addLog
                  callGeminiWithRetry checkResult fromSrt toSrt
                  BATCH_SIZE_pos scriptText fileText srtFile w w' out
                  Hfile Hrun) as Hframe.
    apply (f_equal length) in Hframe. rewrite !length_fmap in Hframe.
    unfold run, pipeline, readFileAsText in Hrun. rewrite Hfile in Hrun.
    unfold mbind, M_bind, mret, M_ret in Hrun.
    destruct (addLog_logs (LogParsed (length (fromSrt fileText))))
      as [f Hf].
    rewrite Hf in Hrun. unfold setLogs at 1 in Hrun.
    destruct (Nat.eqb_spec (length (fromSrt fileText)) 0) as [H0 | H0];
      [done|].
    split; [by destruct (fromSrt fileText)|]. split; [done|].
    match type of Hrun with
    | context [batchLoop ?B ?x ?c ?a ?i ?k ?fuel ?s ?arr ?t ?j ?acc ?w1] =>
        pose proof (batchLoop_calm s arr t fuel j acc w1) as Hcalm;
        pose proof (batchLoop_progress s arr t fuel 0 acc) as Hprog;
        unfold loop in Hcalm, Hprog;
        destruct (batchLoop B x c a i k fuel s arr t j acc w1)
          as [[processed|e] w2] eqn:Hloop
    end; [|done].
    simpl in Hcalm. destruct Hcalm as (Hc1 & Hc2 & Hc3).
    unfold setFinalSrt in Hrun. rewrite Hg in Hrun.
    unfold setIsProcessing, setLogs in Hrun. simpl in Hrun.
    injection Hrun as <- <-. simpl. repeat split; try done.
    specialize (Hprog processed
                  {| requests := requests w; slept := slept w;
                     logs := f (logs w); progress := progress w;
                     isProcessing := isProcessing w;
                     finalSrt := finalSrt w; alerts := alerts w |}).
    simpl in Hprog. rewrite Hloop in Hprog. simpl in Hprog.
    apply Hprog; [lia | nia | done].
  - unfold run, pipeline, readFileAsText in Hrun.
    destruct (file_text srtFile) as [fileText|] eqn:Hfile.
    2: { by injection Hrun as <- <-. }
    unfold mbind, M_bind, mret, M_ret in Hrun.
    destruct (addLog_logs (LogParsed (length (fromSrt fileText))))
      as [f Hf].
    rewrite Hf in Hrun. unfold setLogs at 1 in Hrun.
    destruct (Nat.eqb_spec (length (fromSrt fileText)) 0) as [H0 | H0].
    { by injection Hrun as <- <-. }
    match type of Hrun with
    | context [batchLoop ?B ?x ?c ?a ?i ?k ?fuel ?s ?arr ?t ?j ?acc ?w1] =>
        pose proof (batchLoop_calm s arr t fuel j acc w1) as Hcalm;
        unfold loop in Hcalm;
        destruct (batchLoop B x c a i k fuel s arr t j acc w1)
          as [[processed|e'] w2] eqn:Hloop
    end.
    { unfold setFinalSrt in Hrun. rewrite Hg in Hrun.
      unfold setIsProcessing, setLogs in Hrun. done. }
    simpl in Hcalm. destruct Hcalm as (Hc1 & Hc2 & Hc3).
    by injection Hrun as <- <-.
Qed.

Lemma processSrt_effect (k s : N) (apiKey scriptText : jsstring)
    (srtFile : File) (w : World) :
  let r := processSrt BATCH_SIZE excerptLength cooldown addLog startLogs
             callGeminiWithRetry checkResult fromSrt toSrt
             (k :: apiKey) (s :: scriptText) (Some srtFile) w in
  r.1 = Normal tt
  /\ isProcessing r.2 = false
  /\ ((exists fileText out,
         file_text srtFile = Some fileText
         /\ fromSrt fileText <> []
         /\ length out = length (fromSrt fileText)
         /\ finalSrt r.2 = Some (toSrt out)
         /\ alerts r.2 = alerts w
         /\ progress r.2
            = Some (totalBatchesOf BATCH_SIZE (fromSrt fileText),
                    totalBatchesOf BATCH_SIZE (fromSrt fileText)))
      \/ (exists error,
            alerts r.2 = alerts w ++ [AlertAborted error]
            /\ finalSrt r.2 = finalSrt w)).
Proof.
  intros r.
  assert (exists w',
             r = (Normal tt, w')
             /\ isProcessing w' = false
             /\ ((exists fileText out,
                    file_text srtFile = Some fileText
                    /\ fromSrt fileText <> []
                    /\ length out = length (fromSrt fileText)
                    /\ finalSrt w' = Some (toSrt out)
                    /\ alerts w' = alerts w
                    /\ progress w'
                       = Some (totalBatchesOf BATCH_SIZE (fromSrt fileText),
                               totalBatchesOf BATCH_SIZE
                                 (fromSrt fileText)))
                 \/ (exists error,
                       alerts w' = alerts w ++ [AlertAborted error]
                       /\ finalSrt w' = finalSrt w)))
    as (w' & Hr & H); [|rewrite Hr; split; [reflexivity | exact H]].
  subst r. destruct startLogs_logs as [f Hf].
  unfold processSrt, try_catch, mbind, M_bind, setIsProcessing, setLogs.
  rewrite Hf. unfold setLogs.
  match goal with
  | |- context [pipeline ?B ?x ?c ?a ?i ?k ?fs ?ts ?sc ?fl ?w1] =>
      pose proof (pipeline_effect sc fl w1) as Heff;
      unfold run in Heff;
      destruct (pipeline B x c a i k fs ts sc fl w1) as [[out|e] w2]
  end; simpl in Heff.
  - destruct Heff
      as (fileText & Hfile & Hne & Hlen & Hfin & Hal & Hproc & Hpr).
    eexists. split; [reflexivity|]. split; [done|]. left.
    by exists fileText, out.
  - destruct Heff as [Hfin Hal].
    destruct (addLog_logs (LogFatal e)) as [g Hg]. rewrite Hg.
    unfold setLogs, alert. simpl.
    eexists. split; [reflexivity|]. simpl. split; [done|]. right.
    exists e. by rewrite Hfin, Hal.
Qed.
End RunFacts.

(** [processSrt] with its inputs present never propagates an error and
    always lowers the run flag.  It ends in one of two ways: completed,
    with the final text set to the encoding of an output as long as the
    decoded input, no alert and the progress at the last batch; or aborted,
    with exactly one alert naming the error and the final text untouched, so
    that no partial result is offered.  Both variants. *)
Theorem run_outcome (network : nat -> FetchOutcome)
    (fromSrt : jsstring -> list Entry) (toSrt : list Entry -> jsstring)
    (apiKey scriptText : jsstring) (srtFile : File) (w : World) :
  apiKey <> [] ->
  scriptText <> [] ->
  (let r := App.processSrt network fromSrt toSrt apiKey scriptText
              (Some srtFile) w in
   r.1 = Normal tt
   /\ isProcessing r.2 = false
   /\ ((exists fileText out,
          file_text srtFile = Some fileText
          /\ fromSrt fileText <> []
          /\ length out = length (fromSrt fileText)
          /\ finalSrt r.2 = Some (toSrt out)
          /\ alerts r.2 = alerts w
          /\ progress r.2
             = Some (totalBatchesOf App.BATCH_SIZE (fromSrt fileText),
                     totalBatchesOf App.BATCH_SIZE (fromSrt fileText)))
       \/ (exists error,
             alerts r.2 = alerts w ++ [AlertAborted error]
             /\ finalSrt r.2 = finalSrt w)))
  /\ (let r := Variant.processSrt network fromSrt toSrt apiKey scriptText
                 (Some srtFile) w in
      r.1 = Normal tt
      /\ isProcessing r.2 = false
      /\ ((exists fileText out,
             file_text srtFile = Some fileText
             /\ fromSrt fileText <> []
             /\ length out = length (fromSrt fileText)
             /\ finalSrt r.2 = Some (toSrt out)
             /\ alerts r.2 = alerts w
             /\ progress r.2
                = Some (totalBatchesOf Variant.BATCH_SIZE (fromSrt fileText),
                        totalBatchesOf Variant.BATCH_SIZE
                          (fromSrt fileText)))
          \/ (exists error,
                alerts r.2 = alerts w ++ [AlertAborted error]
                /\ finalSrt r.2 = finalSrt w))).
Proof.
  intros Hkey Hscript.
  destruct apiKey as [|k apiKey]; [done|].
  destruct scriptText as [|s scriptText]; [done|].
  split.
  - unfold App.processSrt.
    refine (processSrt_effect App.BATCH_SIZE App.excerptLength App.cooldown
              App.addLog App.startLogs
              (fun fullPrompt =>
                 App.callGeminiWithRetry network fullPrompt
                   App.defaultRetries)
              App.checkResult fromSrt toSrt _ _ _ _ _
              k s apiKey scriptText srtFile w).
    + unfold App.BATCH_SIZE. lia.
    + intros msg. by exists (fun prev => msg :: prev).
    + by exists (fun prev => LogStart :: prev).
    + intros p w0. apply App_invoker_quiet.
    + intros [[|c t]|] w0; reflexivity.
  - unfold Variant.processSrt.
    refine (processSrt_effect Variant.BATCH_SIZE Variant.excerptLength
              Variant.cooldown Variant.addLog Variant.startLogs
              (fun fullPrompt =>
                 Variant.callGeminiWithRetry network fullPrompt
                   Variant.defaultRetries)
              Variant.checkResult fromSrt toSrt _ _ _ _ _
              k s apiKey scriptText srtFile w).
    + unfold Variant.BATCH_SIZE. lia.
    + intros msg. by exists (fun prev => prev ++ [msg]).
    + by exists (fun prev => (prev ++ [LogStart]) ++ [LogStrategy]).
    + intros p w0. apply Variant_invoker_quiet.
    + intros [t|] w0; reflexivity.
Qed.

Lemma run_outcome_witness :
  (let r := App.processSrt Sample.network Sample.fromSrt Sample.toSrt
              (u16 "key") (u16 "script") (Some Sample.file) initial in
   r.1 = Normal tt
   /\ isProcessing r.2 = false
   /\ ((exists fileText out,
          file_text Sample.file = Some fileText
          /\ Sample.fromSrt fileText <> []
          /\ length out = length (Sample.fromSrt fileText)
          /\ finalSrt r.2 = Some (Sample.toSrt out)
          /\ alerts r.2 = alerts initial
          /\ progress r.2
             = Some (totalBatchesOf App.BATCH_SIZE (Sample.fromSrt fileText),
                     totalBatchesOf App.BATCH_SIZE
                       (Sample.fromSrt fileText)))
       \/ (exists error,
             alerts r.2 = alerts initial ++ [AlertAborted error]
             /\ finalSrt r.2 = finalSrt initial)))
  /\ (let r := Variant.processSrt Sample.network Sample.fromSrt Sample.toSrt
                 (u16 "key") (u16 "script") (Some Sample.file) initial in
      r.1 = Normal tt
      /\ isProcessing r.2 = false
      /\ ((exists fileText out,
             file_text Sample.file = Some fileText
             /\ Sample.fromSrt fileText <> []
             /\ length out = length (Sample.fromSrt fileText)
             /\ finalSrt r.2 = Some (Sample.toSrt out)
             /\ alerts r.2 = alerts initial
             /\ progress r.2
                = Some (totalBatchesOf Variant.BATCH_SIZE
                          (Sample.fromSrt fileText),
                        totalBatchesOf Variant.BATCH_SIZE
                          (Sample.fromSrt fileText)))
          \/ (exists error,
                alerts r.2 = alerts initial ++ [AlertAborted error]
                /\ finalSrt r.2 = finalSrt initial))).
Proof.
  apply (run_outcome Sample.network Sample.fromSrt Sample.toSrt
           (u16 "key") (u16 "script") Sample.file initial).
  - discriminate.
  - discriminate.
Defined.

(** ** Preconditions of [processSrt] *)

(** When the API key, the file or the reference script is missing,
    [processSrt] does nothing but raise one alert, for the first of them
    that is missing: nothing is sent, logged or slept, the run flag is not
    raised and an earlier final text stays.  Both variants. *)
Theorem missing_input_alerts_only (network : nat -> FetchOutcome)
    (fromSrt : jsstring -> list Entry) (toSrt : list Entry -> jsstring)
    (apiKey scriptText : jsstring) (srtFile : option File) (w : World) :
  apiKey = [] \/ srtFile = None \/ scriptText = [] ->
  let missing :=
    match apiKey, srtFile with
    | [], _ => AlertNoApiKey
    | _ :: _, None => AlertNoSrtFile
    | _ :: _, Some _ => AlertNoScript
    end in
  App.processSrt network fromSrt toSrt apiKey scriptText srtFile w
  = (Normal tt,
     {| requests := requests w; slept := slept w; logs := logs w;
        progress := progress w; isProcessing := isProcessing w;
        finalSrt := finalSrt w; alerts := alerts w ++ [missing] |})
  /\ Variant.processSrt network fromSrt toSrt apiKey scriptText srtFile w
     = (Normal tt,
        {| requests := requests w; slept := slept w; logs := logs w;
           progress := progress w; isProcessing := isProcessing w;
           finalSrt := finalSrt w; alerts := alerts w ++ [missing] |}).
Proof.
  intros Hmissing.
  destruct apiKey as [|k apiKey]; [by split|].
  destruct srtFile as [file|]; [|by split].
  destruct scriptText as [|s scriptText]; [by split|].
  by destruct Hmissing as [H | [H | H]].
Qed.

Lemma missing_input_alerts_only_witness :
  App.processSrt Sample.network Sample.fromSrt Sample.toSrt
    (u16 "key") (u16 "script") None initial
  = (Normal tt,
     {| requests := []; slept := []; logs := []; progress := None;
        isProcessing := false; finalSrt := None;
        alerts := [] ++ [AlertNoSrtFile] |})
  /\ Variant.processSrt Sample.network Sample.fromSrt Sample.toSrt
       (u16 "key") (u16 "script") None initial
     = (Normal tt,
        {| requests := []; slept := []; logs := []; progress := None;
           isProcessing := false; finalSrt := None;
           alerts := [] ++ [AlertNoSrtFile] |}).
Proof.
  apply (missing_input_alerts_only Sample.network Sample.fromSrt
           Sample.toSrt (u16 "key") (u16 "script") None initial).
  right. left. reflexivity.
Defined.

(** When the selected file cannot be read, a run whose inputs are present
    is aborted with that failure before anything is sent.  Both variants. *)
Theorem read_failure_aborts (network : nat -> FetchOutcome)
    (fromSrt : jsstring -> list Entry) (toSrt : list Entry -> jsstring)
    (apiKey scriptText : jsstring) (file : File) (w : World) :
  apiKey <> [] ->
  scriptText <> [] ->
  file_text file = None ->
  (let r := App.processSrt network fromSrt toSrt apiKey scriptText
              (Some file) w in
   r.1 = Normal tt
   /\ requests r.2 = requests w
   /\ slept r.2 = slept w
   /\ finalSrt r.2 = finalSrt w
   /\ isProcessing r.2 = false
   /\ alerts r.2 = alerts w ++ [AlertAborted (Raised ReadFailure)])
  /\ (let r := Variant.processSrt network fromSrt toSrt apiKey scriptText
                 (Some file) w in
      r.1 = Normal tt
      /\ requests r.2 = requests w
      /\ slept r.2 = slept w
      /\ finalSrt r.2 = finalSrt w
      /\ isProcessing r.2 = false
      /\ alerts r.2 = alerts w ++ [AlertAborted (Raised ReadFailure)]).
Proof.
  intros Hkey Hscript Hfile.
  destruct apiKey as [|k apiKey]; [done|].
  destruct scriptText as [|s scriptText]; [done|].
  unfold App.processSrt, Variant.processSrt, processSrt, pipeline,
    readFileAsText.
  rewrite Hfile. run_monad. simpl. done.
Qed.

Lemma read_failure_aborts_witness :
  (let r := App.processSrt Sample.network Sample.fromSrt Sample.toSrt
              (u16 "key") (u16 "script")
              (Some {| file_name := u16 "a.srt"; file_text := None |})
              initial in
   r.1 = Normal tt
   /\ requests r.2 = requests initial
   /\ slept r.2 = slept initial
   /\ finalSrt r.2 = finalSrt initial
   /\ isProcessing r.2 = false
   /\ alerts r.2 = alerts initial ++ [AlertAborted (Raised ReadFailure)])
  /\ (let r := Variant.processSrt Sample.network Sample.fromSrt Sample.toSrt
                 (u16 "key") (u16 "script")
                 (Some {| file_name := u16 "a.srt"; file_text := None |})
                 initial in
      r.1 = Normal tt
      /\ requests r.2 = requests initial
      /\ slept r.2 = slept initial
      /\ finalSrt r.2 = finalSrt initial
      /\ isProcessing r.2 = false
      /\ alerts r.2 = alerts initial ++ [AlertAborted (Raised ReadFailure)]).
Proof.
  apply (read_failure_aborts Sample.network Sample.fromSrt Sample.toSrt
           (u16 "key") (u16 "script")
           {| file_name := u16 "a.srt"; file_text := None |} initial).
  - discriminate.
  - discriminate.
  - reflexivity.
Defined.

(** ** A run in which every request is answered *)

Section Answered.
Variable network : nat -> FetchOutcome.
Variable fullPrompt : Prompt.
Variable retries : Z.

Lemma round_answered (i : Z) (w : World) (v : option jsstring) :
  generatedText (network (length (requests w))) = Some v ->
  App.round network fullPrompt retries i w
  = (Normal (Return v), withRequest w fullPrompt)
  /\ Variant.round network fullPrompt retries i w
     = (Normal (Return v), withRequest w fullPrompt).
Proof.
  run_round. unfold withRequest.
  destruct (network (length (requests w))) as [|r]; [done|].
  intros Hgen. round_cases r; by simplify_eq/=.
Qed.

(** A call whose first request is answered with a value returns it at
    once: one request, no wait, no log. *)
Lemma invoker_answered (w : World) (v : option jsstring) :
  (0 < retries)%Z ->
  generatedText (network (length (requests w))) = Some v ->
  App.callGeminiWithRetry network fullPrompt retries w
  = (Normal v, withRequest w fullPrompt)
  /\ Variant.callGeminiWithRetry network fullPrompt retries w
     = (Normal v, withRequest w fullPrompt).
Proof.
  intros Hpos Hgen.
  unfold App.callGeminiWithRetry, Variant.callGeminiWithRetry.
  destruct (Z.to_nat retries) as [|n] eqn:E; [lia|].
  destruct (round_answered 0%Z w v Hgen) as [HA HV].
  simpl. unfold mbind, M_bind. by rewrite HA, HV.
Qed.
End Answered.

Section AnsweredRun.
Variable BATCH_SIZE : nat.
Variable excerptLength : nat.
Variable cooldown : Z.
Variable addLog : LogEvent -> M unit.
Variable startLogs : M unit.
Variable callGeminiWithRetry : Prompt -> M (option jsstring).
Variable checkResult : option jsstring -> M jsstring.
Variable fromSrt : jsstring -> list Entry.
Variable toSrt : list Entry -> jsstring.
Variable answer : nat -> jsstring.
Hypothesis BATCH_SIZE_pos : 0 < BATCH_SIZE.
Hypothesis addLog_logs :
  forall msg, exists f, forall w, addLog msg w = setLogs f w.
Hypothesis startLogs_logs : exists f, forall w, startLogs w = setLogs f w.
Hypothesis invoker_answers :
  forall p w,
    callGeminiWithRetry p w
    = (Normal (Some (answer (length (requests w)))), withRequest w p).
Hypothesis checkResult_accepts :
  forall k w, checkResult (Some (answer k)) w = (Normal (answer k), w).

Let round :=
  batchRound BATCH_SIZE excerptLength cooldown addLog callGeminiWithRetry
    checkResult.
Let loop :=
  batchLoop BATCH_SIZE excerptLength cooldown addLog callGeminiWithRetry
    checkResult.

Lemma batchRound_answered (scriptText : jsstring) (srtArray : list Entry)
    (totalBatches i : nat) (processedArray : list Entry) (w : World) :
  exists w',
    round scriptText srtArray totalBatches i processedArray w
    = (Normal (processedArray
               ++ reconcile (answer (length (requests w)))
                    (slice i (i + BATCH_SIZE) srtArray)), w')
    /\ requests w'
       = requests w
         ++ [fullPrompt excerptLength scriptText
               (slice i (i + BATCH_SIZE) srtArray)]
    /\ slept w'
       = slept w
         ++ (if i / BATCH_SIZE + 1 <? totalBatches then [cooldown] else [])
    /\ alerts w' = alerts w
    /\ finalSrt w' = finalSrt w.
Proof.
  unfold round, batchRound, mbind, M_bind.
  destruct (addLog_logs
              (LogBatch (i / BATCH_SIZE + 1) totalBatches
                 (length (slice i (i + BATCH_SIZE) srtArray)))) as [f Hf].
  rewrite Hf. unfold setLogs. rewrite invoker_answers.
  unfold withRequest at 1. cbn [requests].
  rewrite checkResult_accepts.
  unfold setProgress, withRequest, sleep, mret, M_ret.
  destruct (i / BATCH_SIZE + 1 <? totalBatches); cbn [requests slept alerts
    finalSrt]; eexists; (split; [reflexivity|]); cbn [requests slept alerts
    finalSrt]; rewrite ?app_nil_r; done.
Qed.

(** [q + 1 < ceil(N / B)] exactly when batch [q] is not the last. *)
Lemma not_last_batch (srtArray : list Entry) (q : nat) :
  (q + 1 <? totalBatchesOf BATCH_SIZE srtArray)
  = (S q * BATCH_SIZE <? length srtArray).
Proof.
  unfold totalBatchesOf.
  pose proof (Nat.div_mod_eq (length srtArray) BATCH_SIZE) as Hdm.
  pose proof (Nat.mod_upper_bound (length srtArray) BATCH_SIZE) as Hr.
  destruct (Nat.eqb_spec (length srtArray mod BATCH_SIZE) 0);
    destruct (Nat.ltb_spec (q + 1) (length srtArray / BATCH_SIZE + 0));
    destruct (Nat.ltb_spec (q + 1) (length srtArray / BATCH_SIZE + 1));
    destruct (Nat.ltb_spec (S q * BATCH_SIZE) (length srtArray));
    try reflexivity; nia.
Qed.

Lemma batchLoop_answered (scriptText : jsstring) (srtArray : list Entry)
    (fuel q : nat) (processedArray : list Entry) (w : World) :
  length srtArray <= q * BATCH_SIZE + fuel * BATCH_SIZE ->
  exists w',
    loop fuel scriptText srtArray (totalBatchesOf BATCH_SIZE srtArray)
      (q * BATCH_SIZE) processedArray w
    = (Normal
         (processedArray
          ++ concat
               (imap (fun n batch =>
                        reconcile (answer (length (requests w) + n)) batch)
                  (batches_from BATCH_SIZE fuel (q * BATCH_SIZE) srtArray))),
       w')
    /\ requests w'
       = requests w
         ++ (fullPrompt excerptLength scriptText
               <$> batches_from BATCH_SIZE fuel (q * BATCH_SIZE) srtArray)
    /\ slept w'
       = slept w
         ++ replicate
              (length (batches_from BATCH_SIZE fuel (q * BATCH_SIZE)
                         srtArray) - 1)
              cooldown
    /\ alerts w' = alerts w
    /\ finalSrt w' = finalSrt w.
Proof.
  unfold loop. revert q processedArray w.
  induction fuel as [|fuel IH]; intros q acc w Hfuel.
  - simpl. destruct (Nat.ltb_spec (q * BATCH_SIZE) (length srtArray));
      [lia|].
    exists w. simpl. by rewrite !app_nil_r.
  - simpl. destruct (Nat.ltb_spec (q * BATCH_SIZE) (length srtArray))
      as [Hq | Hq].
    2: { exists w. simpl. by rewrite !app_nil_r. }
    unfold mbind, M_bind.
    destruct (batchRound_answered scriptText srtArray
                (totalBatchesOf BATCH_SIZE srtArray) (q * BATCH_SIZE) acc w)
      as (w1 & Hround & Hreq & Hsl & Hal & Hfin).
    unfold round in Hround. rewrite Hround.
    replace (q * BATCH_SIZE + BATCH_SIZE) with (S q * BATCH_SIZE) by lia.
    destruct (IH (S q)
                (acc ++ reconcile (answer (length (requests w)))
                          (slice (q * BATCH_SIZE) (S q * BATCH_SIZE)
                             srtArray)) w1)
      as (w' & Hloop & Hreq' & Hsl' & Hal' & Hfin'); [lia|].
    replace (q * BATCH_SIZE + BATCH_SIZE) with (S q * BATCH_SIZE) in *
      by lia.
    exists w'. rewrite Hloop. split; [|split; [|split; [|split]]].
    + f_equal. rewrite <- app_assoc. f_equal. rewrite imap_cons. simpl.
      rewrite Nat.add_0_r. do 3 f_equal. apply imap_ext.
      intros n b _. simpl. rewrite Hreq, length_app. simpl.
      do 2 f_equal. lia.
    + rewrite Hreq', Hreq, <- app_assoc. done.
    + rewrite Hsl', Hsl, <- app_assoc. f_equal.
      rewrite Nat.div_mul by lia. rewrite not_last_batch.
      destruct fuel as [|fuel']; simpl;
        destruct (Nat.ltb_spec (BATCH_SIZE + q * BATCH_SIZE)
                    (length srtArray));
        simpl; try done; try lia.
      by rewrite Nat.sub_0_r.
    + congruence.
    + congruence.
Qed.

Lemma processSrt_answered (k s : N) (apiKey scriptText fileText : jsstring)
    (srtFile : File) (w : World) :
  file_text srtFile = Some fileText ->
  fromSrt fileText <> [] ->
  exists w',
    processSrt BATCH_SIZE excerptLength cooldown addLog startLogs
      callGeminiWithRetry checkResult fromSrt toSrt
      (k :: apiKey) (s :: scriptText) (Some srtFile) w
    = (Normal tt, w')
    /\ requests w'
       = requests w
         ++ (fullPrompt excerptLength (s :: scriptText)
               <$> batches BATCH_SIZE (fromSrt fileText))
    /\ slept w'
       = slept w
         ++ replicate (length (batches BATCH_SIZE (fromSrt fileText)) - 1)
              cooldown
    /\ alerts w' = alerts w
    /\ finalSrt w'
       = Some (toSrt
                 (concat
                    (imap (fun n batch =>
                             reconcile (answer (length (requests w) + n))
                               batch)
                       (batches BATCH_SIZE (fromSrt fileText))))).
Proof.
  intros Hfile Hne.
  destruct startLogs_logs as [f Hf].
  destruct (addLog_logs (LogParsed (length (fromSrt fileText)))) as [g Hg].
  destruct (addLog_logs LogDone) as [h Hh].
  unfold processSrt, try_catch, pipeline, readFileAsText, mbind, M_bind,
    setIsProcessing, setLogs.
  rewrite Hfile, Hf. unfold setLogs, mret, M_ret. rewrite Hg.
  unfold setLogs.
  destruct (Nat.eqb_spec (length (fromSrt fileText)) 0) as [H0 | H0].
  { by destruct (fromSrt fileText). }
  match goal with
  | |- context [batchLoop _ _ _ _ _ _ _ _ _ _ _ _ ?w1] =>
      destruct (batchLoop_answered (s :: scriptText) (fromSrt fileText)
                  (length (fromSrt fileText)) 0 [] w1)
        as (w2 & Hloop & Hreq & Hsl & Hal & Hfin); [nia|]
  end.
  unfold loop in Hloop. change (0 * BATCH_SIZE) with 0 in *.
  rewrite Hloop.
  unfold setFinalSrt. rewrite Hh. unfold setLogs. cbn [fst snd].
  eexists. split; [reflexivity|]. cbn [requests slept alerts finalSrt].
  cbn [requests slept alerts finalSrt] in *.
  by rewrite Hreq, Hsl, Hal.
Qed.
End AnsweredRun.

(** When every request is answered at once with a non-empty text, a run
    completes: it sends one request per batch, the prompts of the batches in
    their order, sleeps the cool-down between two batches and not after the
    last, raises no alert and sets the final text to the encoding of the
    batches merged, each with the answer to its request.  Both variants. *)
Theorem answered_run (network : nat -> FetchOutcome)
    (answer : nat -> jsstring)
    (fromSrt : jsstring -> list Entry) (toSrt : list Entry -> jsstring)
    (apiKey scriptText fileText : jsstring) (srtFile : File) (w : World) :
  apiKey <> [] ->
  scriptText <> [] ->
  file_text srtFile = Some fileText ->
  fromSrt fileText <> [] ->
  (forall k, generatedText (network k) = Some (Some (answer k))
             /\ answer k <> []) ->
  (let r := App.processSrt network fromSrt toSrt apiKey scriptText
              (Some srtFile) w in
   let sent := batches App.BATCH_SIZE (fromSrt fileText) in
   r.1 = Normal tt
   /\ requests r.2
      = requests w ++ (fullPrompt App.excerptLength scriptText <$> sent)
   /\ slept r.2 = slept w ++ replicate (length sent - 1) App.cooldown
   /\ alerts r.2 = alerts w
   /\ finalSrt r.2
      = Some (toSrt
                (concat
                   (imap (fun n batch =>
                            reconcile (answer (length (requests w) + n))
                              batch)
                      sent))))
  /\ (let r := Variant.processSrt network fromSrt toSrt apiKey scriptText
                 (Some srtFile) w in
      let sent := batches Variant.BATCH_SIZE (fromSrt fileText) in
      r.1 = Normal tt
      /\ requests r.2
         = requests w
           ++ (fullPrompt Variant.excerptLength scriptText <$> sent)
      /\ slept r.2 = slept w ++ replicate (length sent - 1) Variant.cooldown
      /\ alerts r.2 = alerts w
      /\ finalSrt r.2
         = Some (toSrt
                   (concat
                      (imap (fun n batch =>
                               reconcile (answer (length (requests w) + n))
                                 batch)
                         sent)))).
Proof.
  intros Hkey Hscript Hfile Hne Hnet.
  destruct apiKey as [|k apiKey]; [done|].
  destruct scriptText as [|s scriptText]; [done|].
  split.
  - destruct (processSrt_answered App.BATCH_SIZE App.excerptLength
                App.cooldown App.addLog App.startLogs
                (fun fullPrompt =>
                   App.callGeminiWithRetry network fullPrompt
                     App.defaultRetries)
                App.checkResult fromSrt toSrt answer) with
      (k := k) (s := s) (apiKey := apiKey) (scriptText := scriptText)
      (fileText := fileText) (srtFile := srtFile) (w := w)
      as (w' & Hrun & H); try done.
    + unfold App.BATCH_SIZE. lia.
    + intros msg. by exists (fun prev => msg :: prev).
    + by exists (fun prev => LogStart :: prev).
    + intros p w0.
      apply (invoker_answered network p App.defaultRetries w0); [done|].
      apply Hnet.
    + intros n w0. destruct (Hnet n) as [_ Hn].
      by destruct (answer n).
    + unfold App.processSrt. rewrite Hrun. by split.
  - destruct (processSrt_answered Variant.BATCH_SIZE Variant.excerptLength
                Variant.cooldown Variant.addLog Variant.startLogs
                (fun fullPrompt =>
                   Variant.callGeminiWithRetry network fullPrompt
                     Variant.defaultRetries)
                Variant.checkResult fromSrt toSrt answer) with
      (k := k) (s := s) (apiKey := apiKey) (scriptText := scriptText)
      (fileText := fileText) (srtFile := srtFile) (w := w)
      as (w' & Hrun & H); try done.
    + unfold Variant.BATCH_SIZE. lia.
    + intros msg. by exists (fun prev => prev ++ [msg]).
    + by exists (fun prev => (prev ++ [LogStart]) ++ [LogStrategy]).
    + intros p w0.
      apply (invoker_answered network p Variant.defaultRetries w0); [done|].
      apply Hnet.
    + unfold Variant.processSrt. rewrite Hrun. by split.
Qed.

Lemma answered_run_witness :
  (let r := App.processSrt Scenario.answering Sample.fromSrt Sample.toSrt
              (u16 "key") (u16 "script") (Some Sample.file) initial in
   let sent := batches App.BATCH_SIZE (Sample.fromSrt (u16 "1")) in
   r.1 = Normal tt
   /\ requests r.2
      = requests initial
        ++ (fullPrompt App.excerptLength (u16 "script") <$> sent)
   /\ slept r.2 = slept initial ++ replicate (length sent - 1) App.cooldown
   /\ alerts r.2 = alerts initial
   /\ finalSrt r.2
      = Some (Sample.toSrt
                (concat
                   (imap (fun n batch =>
                            reconcile
                              (Scenario.answer (length (requests initial) + n))
                              batch)
                      sent))))
  /\ (let r := Variant.processSrt Scenario.answering Sample.fromSrt
                 Sample.toSrt (u16 "key") (u16 "script") (Some Sample.file)
                 initial in
      let sent := batches Variant.BATCH_SIZE (Sample.fromSrt (u16 "1")) in
      r.1 = Normal tt
      /\ requests r.2
         = requests initial
           ++ (fullPrompt Variant.excerptLength (u16 "script") <$> sent)
      /\ slept r.2
         = slept initial ++ replicate (length sent - 1) Variant.cooldown
      /\ alerts r.2 = alerts initial
      /\ finalSrt r.2
         = Some (Sample.toSrt
                   (concat
                      (imap (fun n batch =>
                               reconcile
                                 (Scenario.answer
                                    (length (requests initial) + n))
                                 batch)
                         sent)))).
Proof.
  apply (answered_run Scenario.answering Scenario.answer Sample.fromSrt
           Sample.toSrt (u16 "key") (u16 "script") (u16 "1") Sample.file
           initial).
  - discriminate.
  - discriminate.
  - reflexivity.
  - discriminate.
  - intros k. split; [reflexivity | discriminate].
Defined.

(** ** The requests of a run *)

Section RunRequests.
Variable BATCH_SIZE : nat.
Variable excerptLength : nat.
Variable cooldown : Z.
Variable addLog : LogEvent -> M unit.
Variable startLogs : M unit.
Variable callGeminiWithRetry : Prompt -> M (option jsstring).
Variable checkResult : option jsstring -> M jsstring.
Variable fromSrt : jsstring -> list Entry.
Variable toSrt : list Entry -> jsstring.
Variable maxAttempts : nat.
Hypothesis addLog_logs :
  forall msg, exists f, forall w, addLog msg w = setLogs f w.
Hypothesis startLogs_logs : exists f, forall w, startLogs w = setLogs f w.
Hypothesis invoker_requests :
  forall p w,
    exists n, n <= maxAttempts
              /\ requests (callGeminiWithRetry p w).2
                 = requests w ++ replicate n p.
Hypothesis checkResult_pure : forall r w, (checkResult r w).2 = w.

Let round :=
  batchRound BATCH_SIZE excerptLength cooldown addLog callGeminiWithRetry
    checkResult.
Let loop :=
  batchLoop BATCH_SIZE excerptLength cooldown addLog callGeminiWithRetry
    checkResult.



End RunRequests.




(** ** Waiting between attempts *)


Section Waits.
Variable network : nat -> FetchOutcome.
Variable fullPrompt : Prompt.
Variable retries : Z.







End Waits.


(** ** What a completed run has computed *)

Section CompletedRun.
Variable BATCH_SIZE : nat.
Variable excerptLength : nat.
Variable cooldown : Z.
Variable addLog : LogEvent -> M unit.
Variable callGeminiWithRetry : Prompt -> M (option jsstring).
Variable checkResult : option jsstring -> M jsstring.
Variable fromSrt : jsstring -> list Entry.
Variable toSrt : list Entry -> jsstring.
Variable scriptText : jsstring.


End CompletedRun.



